(** * Mempool: the pool of pending transactions of a node

    Shallow embedding of [src/main/generic/consensus/base/mempool/Mempool.js].

    The class keeps two collections, [_transactions] (a [HashMap] from the
    hash of a transaction to the transaction) and [_senderPubKeys] (a
    [HashSet] of the public keys of the senders in the pool).  They are
    modelled as a [gmap] and a [gset].  The methods are [async]: they are
    embedded in a small state-and-output monad and run to completion against
    one state of the accounts, which is the behaviour of a call that no other
    call of the pool interleaves with.  The scheduling inside one eviction
    sweep (the promises of [_evictTransactions]) is modelled as a step
    relation, [sweep_step], and related to the monadic function.  Calls and
    sweeps that overlap are modelled as a step relation on the pool with
    the calls and sweeps in flight, [node_step], of which the runs of the
    monadic functions and of [sweep_step] are instances. *)

From Stdlib Require Import QArith Qcanon Qround.
From stdpp Require Import base option list gmap fin_sets fin_maps strings pretty.

Local Open Scope Z_scope.

(* The solvers of stdpp clear hypotheses by name. *)
Set Warnings "-clear-no-such-hyp".

(** The types of the collaborators ([Hash], [PublicKey], [Address],
    [Signature]) are declared outside of the mempool; it only compares them
    and uses them as keys. *)

(** ** Numbers

    Amounts and nonces are JavaScript numbers that hold integers: doubles.
    Doubles compare exactly.  Their sum is the exact sum rounded to the
    nearest double, to the one with the even significand on a tie: an
    integer of at most 53 bits is a double, a longer one is rounded to a
    multiple of the power of two that leaves it 53 bits.  (A sum past the
    largest double is [Infinity]; such a sum is past every double here too,
    so that it compares with a double as [Infinity] does.) *)

(** The double nearest to an integer. *)
Definition round_double (n : Z) : Z :=
  let e := Z.log2 (Z.abs n) - 52 in
  if e <=? 0 then n
  else
    let ulp := 2 ^ e in
    let q := n `div` ulp in
    let r := n `mod` ulp in
    if 2 * r <? ulp then q * ulp
    else if ulp <? 2 * r then (q + 1) * ulp
    else if Z.even q then q * ulp
    else (q + 1) * ulp.

(** [x + y] on doubles that hold integers. *)
Definition add_double (x y : Z) : Z := round_double (x + y).

(** Modelled from the spec: the class [Transaction] is not part of the
    sources; the record has the fields the data model lists, under the names
    [Mempool.js] reads them by.  Amounts and nonces are integral JavaScript
    numbers. *)
Record Transaction {PublicKey Address Signature : Type} := {
  senderPubKey : PublicKey;
  recipientAddr : Address;
  value : Z;
  fee : Z;
  nonce : Z;
  signature : Signature
}.
Arguments Transaction : clear implicits.

(** The asynchronous methods of a transaction the mempool awaits:
    [transaction.hash()], [transaction.verifySignature()] and
    [transaction.getSenderAddr()].  They are deterministic functions of the
    transaction. *)
Class TransactionMethods (Hash PublicKey Address Signature : Type) := {
  hash : Transaction PublicKey Address Signature → Hash;
  verifySignature : Transaction PublicKey Address Signature → bool;
  getSenderAddr : Transaction PublicKey Address Signature → Address
}.

(** Modelled from the spec: what [Accounts.getBalance] answers, the balance
    of an account and its next expected nonce ([senderBalance.value] and
    [senderBalance.nonce] in the source). *)
Record Balance := {
  balance_value : Z;
  balance_nonce : Z
}.

Section mempool.

Context {Hash PublicKey Address Signature : Type}.
Context `{!EqDecision Hash, !Countable Hash}.
Context `{!EqDecision PublicKey, !Countable PublicKey}.
Context `{!EqDecision Address}.
Context `{!TransactionMethods Hash PublicKey Address Signature}.

Local Abbreviation Transaction := (Transaction PublicKey Address Signature).

(** The accounts, as [getBalance] shows them: every address has a balance
    (an unknown account has the initial one). *)
Definition Accounts : Type := Address → Balance.

(** ** State, notifications and log lines *)

Record Mempool := {
  _transactions : gmap Hash Transaction;
  _senderPubKeys : gset PublicKey
}.

(** [new Mempool(blockchain, accounts)]: both collections start empty. *)
Definition Mempool_new : Mempool :=
  {| _transactions := ∅; _senderPubKeys := ∅ |}.

(** What [this.fire] sends to the listeners. *)
Inductive Event :=
| transaction_added (transaction : Transaction)
| transactions_ready.

(** The calls of [Log.v] and [Log.w], one constructor per call site, in
    the order of the source. *)
Inductive LogLine :=
| Ignoring_known_transaction (h : Hash)
| Rejecting_duplicate_sender_public_key
| Rejected_invalid_signature (transaction : Transaction)
| Rejecting_sender_and_recipient_coincide
| Rejected_insufficient_funds (transaction : Transaction)
| Rejected_invalid_nonce (transaction : Transaction).

Inductive Effect :=
| Fire (e : Event)
| Log (l : LogLine).

(** ** The monad of the methods: the state of [this] and the output *)

Definition M (A : Type) : Type := Mempool → A * Mempool * list Effect.

Definition ret {A} (a : A) : M A := λ this, (a, this, []).

Definition bind {A B} (m : M A) (k : A → M B) : M B := λ this,
  let '(a, this', out) := m this in
  let '(b, this'', out') := k a this' in
  (b, this'', out ++ out').

Definition gets {A} (f : Mempool → A) : M A := λ this, (f this, this, []).
Definition modify (f : Mempool → Mempool) : M unit := λ this, (tt, f this, []).
Definition fire (e : Event) : M unit := λ this, (tt, this, [Fire e]).
Definition log (l : LogLine) : M unit := λ this, (tt, this, [Log l]).

(** [when c m]: the statement [if (c) m;]. *)
Definition when (c : bool) (m : M unit) : M unit := if c then m else ret tt.

#[global] Instance M_ret : MRet M := @ret.
#[global] Instance M_bind : MBind M := λ A B k m, bind m k.

(** Projections of the outcome of a run. *)
Definition result {A} (r : A * Mempool * list Effect) : A := r.1.1.
Definition pool {A} (r : A * Mempool * list Effect) : Mempool := r.1.2.
Definition output {A} (r : A * Mempool * list Effect) : list Effect := r.2.

(** The notifications among the output. *)
Definition fired (out : list Effect) : list Event :=
  omap (λ e, match e with Fire ev => Some ev | Log _ => None end) out.

(** ** The methods *)

(** [_verifyTransactionBalance(transaction, quiet = false)] *)
Definition _verifyTransactionBalance
    (accounts : Accounts) (transaction : Transaction) (quiet : bool) : M bool :=
  let senderAddr := getSenderAddr transaction in
  let senderBalance := accounts senderAddr in
  if balance_value senderBalance <? add_double (value transaction) (fee transaction) then
    when (negb quiet) (log (Rejected_insufficient_funds transaction)) ;;
    ret false
  else if negb (bool_decide (balance_nonce senderBalance = nonce transaction)) then
    when (negb quiet) (log (Rejected_invalid_nonce transaction)) ;;
    ret false
  else
    ret true.

(** [_verifyTransaction(transaction)] *)
Definition _verifyTransaction
    (accounts : Accounts) (transaction : Transaction) : M bool :=
  if negb (verifySignature transaction) then
    log (Rejected_invalid_signature transaction) ;;
    ret false
  else
    let senderAddr := getSenderAddr transaction in
    if bool_decide (recipientAddr transaction = senderAddr) then
      log Rejecting_sender_and_recipient_coincide ;;
      ret false
    else
      _verifyTransactionBalance accounts transaction false.

(** [pushTransaction(transaction)] *)
Definition pushTransaction
    (accounts : Accounts) (transaction : Transaction) : M bool :=
  let h := hash transaction in
  known ← gets (λ this, bool_decide (is_Some (_transactions this !! h)));
  if (known : bool) then
    log (Ignoring_known_transaction h) ;;
    ret false
  else
    verified ← _verifyTransaction accounts transaction;
    if negb (verified : bool) then
      ret false
    else
      active ← gets (λ this,
        bool_decide (senderPubKey transaction ∈ _senderPubKeys this));
      if (active : bool) then
        log Rejecting_duplicate_sender_public_key ;;
        ret false
      else
        modify (λ this,
          {| _transactions := _transactions this;
             _senderPubKeys := {[senderPubKey transaction]} ∪ _senderPubKeys this |}) ;;
        modify (λ this,
          {| _transactions := <[h := transaction]> (_transactions this);
             _senderPubKeys := _senderPubKeys this |}) ;;
        fire (transaction_added transaction) ;;
        ret true.

(** [getTransaction(hash)]; [None] is JavaScript's [undefined]. *)
Definition getTransaction (h : Hash) : M (option Transaction) :=
  gets (λ this, _transactions this !! h).

(** The loop of [getTransactions]: [values] is what is left to iterate,
    [transactions] the array built so far. *)
Fixpoint getTransactions_loop
    (maxCount : Z) (values transactions : list Transaction) : list Transaction :=
  match values with
  | [] => transactions
  | transaction :: values' =>
      if Z.of_nat (length transactions) >=? maxCount then transactions
      else getTransactions_loop maxCount values' (transactions ++ [transaction])
  end.

(** [getTransactions(maxCount = 5000)]; the values of the map are listed
    in the order of its entries. *)
Definition getTransactions (maxCount : Z) : M (list Transaction) :=
  values ← gets (λ this, (map_to_list (_transactions this)).*2);
  mret (getTransactions_loop maxCount values []).

(** The body of the [.then] callback of [_evictTransactions] for an
    invalid transaction: both removals. *)
Definition evict (h : Hash) (transaction : Transaction) (this : Mempool) : Mempool :=
  {| _transactions := delete h (_transactions this);
     _senderPubKeys := _senderPubKeys this ∖ {[senderPubKey transaction]} |}.

(** The callback [isValid => { if (!isValid) { ... } }]. *)
Definition evict_then
    (h : Hash) (transaction : Transaction) (isValid : bool) : M unit :=
  when (negb isValid) (modify (evict h transaction)).

(** A [for ... of] loop over a list. *)
Fixpoint for_each {A} (body : A → M unit) (l : list A) : M unit :=
  match l with
  | [] => ret tt
  | x :: l' => body x ;; for_each body l'
  end.

(** [this._transactions.keys()] *)
Definition keys (this : Mempool) : list Hash :=
  (map_to_list (_transactions this)).*1.

(** What the [for] loop of [_evictTransactions] makes its promises for: each
    [hash] of the keys with [this._transactions.get(hash)].  The loop runs
    before any callback, on the pool as the sweep found it; [get] finds
    every key (lemma [promised_entries]). *)
Definition promised (this : Mempool) : list (Hash * Transaction) :=
  omap (λ h, pair h <$> _transactions this !! h) (keys this).

(** [_evictTransactions()], every promise run to its end in the order the
    loop made them. *)
Definition _evictTransactions (accounts : Accounts) : M unit :=
  promises ← gets promised;
  for_each (λ '(h, transaction),
    isValid ← _verifyTransactionBalance accounts transaction true;
    evict_then h transaction isValid) (promises : list (Hash * Transaction)) ;;
  fire transactions_ready.

(** ** The promises of one sweep

    [_evictTransactions] makes one promise per pooled transaction,
    [_verifyTransactionBalance(transaction, true).then(callback)], and
    awaits them all before it fires [transactions-ready].  The check of a
    promise resolves at a time the accounts decide; its callback runs
    afterwards.  The step relation leaves the order open. *)

Inductive PromiseState :=
| Pending                     (* the check has not resolved *)
| Resolved (isValid : bool)   (* the check has resolved, the callback has not run *)
| Settled.                    (* the callback has run *)

#[global] Instance PromiseState_eq_dec : EqDecision PromiseState.
Proof. solve_decision. Defined.

Record Promise := {
  promise_hash : Hash;
  promise_transaction : Transaction;
  promise_state : PromiseState
}.

(** The entry of the pool a promise was made for. *)
Definition promise_entry (p : Promise) : Hash * Transaction :=
  (promise_hash p, promise_transaction p).

(** A promise once its callback has run. *)
Definition settle (p : Promise) : Promise :=
  {| promise_hash := promise_hash p; promise_transaction := promise_transaction p;
     promise_state := Settled |}.

(** The promise the loop makes for an entry. *)
Definition promise_of (e : Hash * Transaction) : Promise :=
  {| promise_hash := e.1; promise_transaction := e.2; promise_state := Pending |}.

Record Sweep := {
  sweep_this : Mempool;
  sweep_promises : list Promise;
  sweep_fired : list Event
}.

(** The state after the [for] loop: a pending promise per entry. *)
Definition sweep_start (this : Mempool) : Sweep :=
  {| sweep_this := this;
     sweep_promises := promise_of <$> promised this;
     sweep_fired := [] |}.

Inductive sweep_step (accounts : Accounts) : Sweep → Sweep → Prop :=
| step_resolve this l1 h transaction l2 evs :
    (* the check of a pending promise resolves *)
    sweep_step accounts
      {| sweep_this := this;
         sweep_promises := l1 ++ Build_Promise h transaction Pending :: l2;
         sweep_fired := evs |}
      {| sweep_this := this;
         sweep_promises :=
           l1 ++ Build_Promise h transaction
                   (Resolved (result (_verifyTransactionBalance accounts transaction true this)))
              :: l2;
         sweep_fired := evs |}
| step_then this l1 h transaction isValid l2 evs :
    (* the callback of a promise whose check has resolved runs *)
    sweep_step accounts
      {| sweep_this := this;
         sweep_promises := l1 ++ Build_Promise h transaction (Resolved isValid) :: l2;
         sweep_fired := evs |}
      {| sweep_this := pool (evict_then h transaction isValid this);
         sweep_promises := l1 ++ Build_Promise h transaction Settled :: l2;
         sweep_fired := evs |}
| step_fire this l :
    (* [await Promise.all(promises)] returns and the event is fired *)
    Forall (λ p, promise_state p = Settled) l →
    sweep_step accounts
      {| sweep_this := this; sweep_promises := l; sweep_fired := [] |}
      {| sweep_this := this; sweep_promises := l;
         sweep_fired := [transactions_ready] |}.

(** ** Sequences of operations *)

(** The pools a sequence of [pushTransaction] and head changes (each one
    run of [_evictTransactions]) leads to from the new pool; the accounts
    may differ from one operation to the next. *)
Inductive reachable : Mempool → Prop :=
| reachable_new : reachable Mempool_new
| reachable_push accounts transaction this :
    reachable this →
    reachable (pool (pushTransaction accounts transaction this))
| reachable_evict accounts this :
    reachable this →
    reachable (pool (_evictTransactions accounts this)).

(** ** The admission pipeline as one function *)

(** The reasons [pushTransaction] rejects a transaction for, in the order
    of the pipeline, under the names the specification gives them. *)
Inductive Rejection :=
| Duplicate
| BadSignature
| SelfPayment
| InsufficientFunds
| SequenceMismatch
| SenderActive.

(** The first check of the pipeline that fails, [None] when all six pass.
    The funds are compared with the sum the code computes. *)
Definition first_failure
    (accounts : Accounts) (t : Transaction) (this : Mempool) : option Rejection :=
  if decide (is_Some (_transactions this !! hash t)) then Some Duplicate
  else if decide (verifySignature t = false) then Some BadSignature
  else if decide (getSenderAddr t = recipientAddr t) then Some SelfPayment
  else if decide (balance_value (accounts (getSenderAddr t)) < add_double (value t) (fee t))
    then Some InsufficientFunds
  else if decide (balance_nonce (accounts (getSenderAddr t)) ≠ nonce t)
    then Some SequenceMismatch
  else if decide (senderPubKey t ∈ _senderPubKeys this) then Some SenderActive
  else None.

(** The line the source logs at each rejection. *)
Definition rejection_log (t : Transaction) (r : Rejection) : LogLine :=
  match r with
  | Duplicate => Ignoring_known_transaction (hash t)
  | BadSignature => Rejected_invalid_signature t
  | SelfPayment => Rejecting_sender_and_recipient_coincide
  | InsufficientFunds => Rejected_insufficient_funds t
  | SequenceMismatch => Rejected_invalid_nonce t
  | SenderActive => Rejecting_duplicate_sender_public_key
  end.

(** The pool with [t] admitted. *)
Definition admitted (t : Transaction) (this : Mempool) : Mempool :=
  {| _transactions := <[hash t := t]> (_transactions this);
     _senderPubKeys := {[senderPubKey t]} ∪ _senderPubKeys this |}.

(** The pipeline in one step: the verdict, the pool and the output by the
    first check that fails. *)
Definition submit_spec
    (accounts : Accounts) (t : Transaction) (this : Mempool)
    : bool * Mempool * list Effect :=
  match first_failure accounts t this with
  | Some r => (false, this, [Log (rejection_log t r)])
  | None => (true, admitted t this, [Fire (transaction_added t)])
  end.

(** ** Eviction as one function *)

(** A transaction is stale when [_verifyTransactionBalance] rejects it: the
    balance of its sender is below the sum the code computes of value and
    fee, or its nonce is not the one the account expects. *)
Definition stale (accounts : Accounts) (t : Transaction) : Prop :=
  balance_value (accounts (getSenderAddr t)) < add_double (value t) (fee t)
  ∨ balance_nonce (accounts (getSenderAddr t)) ≠ nonce t.

#[global] Instance stale_dec accounts t : Decision (stale accounts t).
Proof. unfold stale. apply _. Defined.

(** ** The checks, in the words of the specification

    The specification has the amounts as integers and compares the balance
    with [value + fee], the sum of the integers. *)

(** The six checks of the admission pipeline pass. *)
Definition spec_admissible
    (accounts : Accounts) (t : Transaction) (this : Mempool) : Prop :=
  _transactions this !! hash t = None
  ∧ verifySignature t = true
  ∧ getSenderAddr t ≠ recipientAddr t
  ∧ value t + fee t ≤ balance_value (accounts (getSenderAddr t))
  ∧ balance_nonce (accounts (getSenderAddr t)) = nonce t
  ∧ senderPubKey t ∉ _senderPubKeys this.

(** The transactions a sweep is to remove. *)
Definition spec_stale (accounts : Accounts) (t : Transaction) : Prop :=
  balance_value (accounts (getSenderAddr t)) < value t + fee t
  ∨ balance_nonce (accounts (getSenderAddr t)) ≠ nonce t.

(** The pool without the entries of [l]. *)
Definition remove_entries (l : list (Hash * Transaction)) (this : Mempool) : Mempool :=
  foldr (λ e, evict e.1 e.2) this l.

(** The entries of the pool that are stale. *)
Definition stale_entries (accounts : Accounts) (this : Mempool)
    : list (Hash * Transaction) :=
  filter (λ e, stale accounts e.2) (map_to_list (_transactions this)).

(** The reading of the sweep the specification gives: no step of a sweep
    changes the pool while the check of some promise is still pending. *)
Definition removals_wait_for_all_checks (accounts : Accounts) (this : Mempool) : Prop :=
  ∀ st st',
    rtc (sweep_step accounts) (sweep_start this) st →
    sweep_step accounts st st' →
    sweep_this st' ≠ sweep_this st →
    ∀ p, p ∈ sweep_promises st → promise_state p ≠ Pending.

(** The entries whose promise is settled and whose transaction is stale:
    those the callbacks that have run removed. *)
Definition settled_stale (accounts : Accounts) (l : list Promise)
    : list (Hash * Transaction) :=
  promise_entry
    <$> filter (λ p, promise_state p = Settled
                     ∧ stale accounts (promise_transaction p)) l.

(** What holds of a sweep of the pool [this] all along: the promises are
    those of the entries of [this], a resolved check carries the verdict of
    [_verifyTransactionBalance], the pool is [this] without the stale
    entries whose callback has run, and the event is fired at most once, once
    every promise is settled. *)
Definition sweep_inv (accounts : Accounts) (this : Mempool) (st : Sweep) : Prop :=
  promise_entry <$> sweep_promises st = map_to_list (_transactions this)
  ∧ (∀ p isValid,
       p ∈ sweep_promises st → promise_state p = Resolved isValid →
       isValid = bool_decide (¬ stale accounts (promise_transaction p)))
  ∧ sweep_this st = remove_entries (settled_stale accounts (sweep_promises st)) this
  ∧ (sweep_fired st = []
     ∨ sweep_fired st = [transactions_ready]
       ∧ Forall (λ p, promise_state p = Settled) (sweep_promises st)).

(** ** The invariants of the pool *)

(** I2 of the specification: the sender of every pooled transaction is in
    [_senderPubKeys], two entries with the same sender are one entry, and
    there are as many entries as senders. *)
Definition sender_exclusive (this : Mempool) : Prop :=
  (∀ h t, _transactions this !! h = Some t → senderPubKey t ∈ _senderPubKeys this)
  ∧ (∀ h1 t1 h2 t2,
       _transactions this !! h1 = Some t1 →
       _transactions this !! h2 = Some t2 →
       senderPubKey t1 = senderPubKey t2 → h1 = h2)
  ∧ size (_transactions this) = size (_senderPubKeys this).

(** Every entry is stored under the hash of its transaction. *)
Definition keyed_by_hash (this : Mempool) : Prop :=
  ∀ h t, _transactions this !! h = Some t → hash t = h.

(** ** Sequences of calls *)

(** The outcomes of a sequence of calls of [pushTransaction], each under
    accounts of its own, every call starting in the pool the one before
    left. *)
Fixpoint submissions
    (calls : list (Accounts * Transaction)) (this : Mempool)
    : list (bool * Mempool * list Effect) :=
  match calls with
  | [] => []
  | (accounts, t) :: calls' =>
      let r := pushTransaction accounts t this in
      r :: submissions calls' (pool r)
  end.

(** ** Calls that overlap

    The methods are [async]: a call runs up to an [await], and other calls
    of the pool run before it goes on.  [pushTransaction] reads and writes
    the pool in two stretches with no [await] inside: the test for a known
    hash, behind [await transaction.hash()], and, behind
    [await this._verifyTransaction(transaction)], the test of
    [_senderPubKeys] with the two insertions and the event.  The
    verification between them awaits the signature, the sender address and
    the balance, and reads the accounts as they are then.  A sweep goes as
    its promises do (see [sweep_step]); several sweeps can be in flight,
    one per [head-changed] that was fired. *)

(** [pushTransaction] up to [await this._verifyTransaction(transaction)]:
    [true] when the hash is not known and the call goes on. *)
Definition pushTransaction_begin (transaction : Transaction) : M bool :=
  let h := hash transaction in
  known ← gets (λ this, bool_decide (is_Some (_transactions this !! h)));
  if (known : bool) then
    log (Ignoring_known_transaction h) ;;
    ret false
  else
    ret true.

(** [pushTransaction] from the result of
    [await this._verifyTransaction(transaction)] on. *)
Definition pushTransaction_end
    (transaction : Transaction) (verified : bool) : M bool :=
  if negb verified then
    ret false
  else
    active ← gets (λ this,
      bool_decide (senderPubKey transaction ∈ _senderPubKeys this));
    if (active : bool) then
      log Rejecting_duplicate_sender_public_key ;;
      ret false
    else
      modify (λ this,
        {| _transactions := _transactions this;
           _senderPubKeys := {[senderPubKey transaction]} ∪ _senderPubKeys this |}) ;;
      modify (λ this,
        {| _transactions := <[hash transaction := transaction]> (_transactions this);
           _senderPubKeys := _senderPubKeys this |}) ;;
      fire (transaction_added transaction) ;;
      ret true.

(** Where a call of [pushTransaction] is. *)
Inductive CallState :=
| Hashing                      (* at [await transaction.hash()] *)
| Verifying                    (* at [await this._verifyTransaction(transaction)] *)
| Verified (verified : bool)   (* the verification has resolved *)
| Returned (r : bool).         (* the call has returned [r] *)

Record Call := {
  call_transaction : Transaction;
  call_state : CallState
}.

(** A sweep in flight: its promises, and whether it has fired its event. *)
Record Run := {
  run_promises : list Promise;
  run_fired : bool
}.

(** The pool with the calls and the sweeps in flight, and the output so
    far. *)
Record Node := {
  node_this : Mempool;
  node_calls : list Call;
  node_runs : list Run;
  node_out : list Effect
}.

Definition node_new : Node :=
  {| node_this := Mempool_new; node_calls := []; node_runs := []; node_out := [] |}.

(** The entries the promises that have not settled were made for: of one
    sweep, and of all the sweeps in flight. *)
Definition pending (promises : list Promise) : list (Hash * Transaction) :=
  promise_entry <$> filter (λ p, promise_state p ≠ Settled) promises.

Definition unsettled (runs : list Run) : list (Hash * Transaction) :=
  runs ≫= λ run, pending (run_promises run).

(** One stretch of one call or one sweep.  With [serial] a [head-changed]
    is only fired once the promises of the sweeps before have all settled;
    without, at any time. *)
Inductive node_step (serial : bool) : Node → Node → Prop :=
| node_push this calls runs out transaction :
    (* [pushTransaction(transaction)] is called *)
    node_step serial
      {| node_this := this; node_calls := calls; node_runs := runs;
         node_out := out |}
      {| node_this := this;
         node_calls := calls ++ [Build_Call transaction Hashing];
         node_runs := runs; node_out := out |}
| node_known this c1 transaction c2 runs out :
    (* the hash has resolved: the test for a known hash *)
    node_step serial
      {| node_this := this;
         node_calls := c1 ++ Build_Call transaction Hashing :: c2;
         node_runs := runs; node_out := out |}
      {| node_this := pool (pushTransaction_begin transaction this);
         node_calls :=
           c1 ++ Build_Call transaction
                   (if result (pushTransaction_begin transaction this)
                    then Verifying else Returned false) :: c2;
         node_runs := runs;
         node_out := out ++ output (pushTransaction_begin transaction this) |}
| node_verify accounts this c1 transaction c2 runs out :
    (* [_verifyTransaction] runs, on the accounts as they are *)
    node_step serial
      {| node_this := this;
         node_calls := c1 ++ Build_Call transaction Verifying :: c2;
         node_runs := runs; node_out := out |}
      {| node_this := pool (_verifyTransaction accounts transaction this);
         node_calls :=
           c1 ++ Build_Call transaction
                   (Verified (result (_verifyTransaction accounts transaction this)))
              :: c2;
         node_runs := runs;
         node_out := out ++ output (_verifyTransaction accounts transaction this) |}
| node_admit this c1 transaction verified c2 runs out :
    (* the rest of [pushTransaction] *)
    node_step serial
      {| node_this := this;
         node_calls := c1 ++ Build_Call transaction (Verified verified) :: c2;
         node_runs := runs; node_out := out |}
      {| node_this := pool (pushTransaction_end transaction verified this);
         node_calls :=
           c1 ++ Build_Call transaction
                   (Returned (result (pushTransaction_end transaction verified this)))
              :: c2;
         node_runs := runs;
         node_out := out ++ output (pushTransaction_end transaction verified this) |}
| node_head_changed this calls runs out :
    (* [head-changed]: the loop of [_evictTransactions] makes its promises *)
    (serial = true → unsettled runs = []) →
    node_step serial
      {| node_this := this; node_calls := calls; node_runs := runs;
         node_out := out |}
      {| node_this := this; node_calls := calls;
         node_runs := runs ++ [Build_Run (promise_of <$> promised this) false];
         node_out := out |}
| node_resolve accounts this calls r1 l1 h transaction l2 fired r2 out :
    (* the check of a promise resolves, on the accounts as they are *)
    node_step serial
      {| node_this := this; node_calls := calls;
         node_runs :=
           r1 ++ Build_Run (l1 ++ Build_Promise h transaction Pending :: l2) fired
              :: r2;
         node_out := out |}
      {| node_this := this; node_calls := calls;
         node_runs :=
           r1 ++ Build_Run
                   (l1 ++ Build_Promise h transaction
                            (Resolved (result (_verifyTransactionBalance
                                                 accounts transaction true this)))
                       :: l2) fired
              :: r2;
         node_out := out |}
| node_then this calls r1 l1 h transaction isValid l2 fired r2 out :
    (* the callback of a promise runs *)
    node_step serial
      {| node_this := this; node_calls := calls;
         node_runs :=
           r1 ++ Build_Run
                   (l1 ++ Build_Promise h transaction (Resolved isValid) :: l2) fired
              :: r2;
         node_out := out |}
      {| node_this := pool (evict_then h transaction isValid this);
         node_calls := calls;
         node_runs :=
           r1 ++ Build_Run (l1 ++ Build_Promise h transaction Settled :: l2) fired
              :: r2;
         node_out := out |}
| node_fire this calls r1 l r2 out :
    (* [await Promise.all(promises)] returns: the event of the sweep *)
    Forall (λ p, promise_state p = Settled) l →
    node_step serial
      {| node_this := this; node_calls := calls;
         node_runs := r1 ++ Build_Run l false :: r2; node_out := out |}
      {| node_this := this; node_calls := calls;
         node_runs := r1 ++ Build_Run l true :: r2;
         node_out := out ++ [Fire transactions_ready] |}.

(** What happens next: a call of [pushTransaction], a [head-changed], or
    the stretch that goes on, of the call or of the promise with that
    index, on the accounts as they are then. *)
Inductive Action :=
| push_called (transaction : Transaction)
| push_hashed (i : nat)
| push_verified (accounts : Accounts) (i : nat)
| push_returns (i : nat)
| head_changed
| check_resolved (accounts : Accounts) (i j : nat)
| callback_runs (i j : nat)
| sweep_returns (i : nat).

(** The state after an action; [None] when the action cannot happen in
    that state. *)
Definition node_act (serial : bool) (a : Action) (n : Node) : option Node :=
  let this := node_this n in
  match a with
  | push_called transaction =>
      Some {| node_this := this;
              node_calls := node_calls n ++ [Build_Call transaction Hashing];
              node_runs := node_runs n; node_out := node_out n |}
  | push_hashed i =>
      c ← node_calls n !! i;
      let transaction := call_transaction c in
      match call_state c with
      | Hashing =>
          let r := pushTransaction_begin transaction this in
          Some {| node_this := pool r;
                  node_calls :=
                    <[i := Build_Call transaction
                             (if result r then Verifying else Returned false)]>
                      (node_calls n);
                  node_runs := node_runs n;
                  node_out := node_out n ++ output r |}
      | _ => None
      end
  | push_verified accounts i =>
      c ← node_calls n !! i;
      let transaction := call_transaction c in
      match call_state c with
      | Verifying =>
          let r := _verifyTransaction accounts transaction this in
          Some {| node_this := pool r;
                  node_calls :=
                    <[i := Build_Call transaction (Verified (result r))]>
                      (node_calls n);
                  node_runs := node_runs n;
                  node_out := node_out n ++ output r |}
      | _ => None
      end
  | push_returns i =>
      c ← node_calls n !! i;
      let transaction := call_transaction c in
      match call_state c with
      | Verified verified =>
          let r := pushTransaction_end transaction verified this in
          Some {| node_this := pool r;
                  node_calls :=
                    <[i := Build_Call transaction (Returned (result r))]>
                      (node_calls n);
                  node_runs := node_runs n;
                  node_out := node_out n ++ output r |}
      | _ => None
      end
  | head_changed =>
      if serial && negb (bool_decide (unsettled (node_runs n) = [])) then None
      else
        Some {| node_this := this; node_calls := node_calls n;
                node_runs :=
                  node_runs n ++ [Build_Run (promise_of <$> promised this) false];
                node_out := node_out n |}
  | check_resolved accounts i j =>
      run ← node_runs n !! i;
      p ← run_promises run !! j;
      let transaction := promise_transaction p in
      match promise_state p with
      | Pending =>
          let r := _verifyTransactionBalance accounts transaction true this in
          Some {| node_this := this; node_calls := node_calls n;
                  node_runs :=
                    <[i := Build_Run
                             (<[j := Build_Promise (promise_hash p) transaction
                                       (Resolved (result r))]>
                                (run_promises run))
                             (run_fired run)]> (node_runs n);
                  node_out := node_out n |}
      | _ => None
      end
  | callback_runs i j =>
      run ← node_runs n !! i;
      p ← run_promises run !! j;
      match promise_state p with
      | Resolved isValid =>
          let r := evict_then (promise_hash p) (promise_transaction p) isValid this in
          Some {| node_this := pool r; node_calls := node_calls n;
                  node_runs :=
                    <[i := Build_Run (<[j := settle p]> (run_promises run))
                             (run_fired run)]> (node_runs n);
                  node_out := node_out n |}
      | _ => None
      end
  | sweep_returns i =>
      run ← node_runs n !! i;
      if run_fired run then None
      else if bool_decide (Forall (λ p, promise_state p = Settled) (run_promises run))
      then
        Some {| node_this := this; node_calls := node_calls n;
                node_runs := <[i := Build_Run (run_promises run) true]> (node_runs n);
                node_out := node_out n ++ [Fire transactions_ready] |}
      else None
  end.

(** The state after a schedule, an action after the other. *)
Fixpoint node_run (serial : bool) (schedule : list Action) (n : Node) : option Node :=
  match schedule with
  | [] => Some n
  | a :: schedule' => n' ← node_act serial a n; node_run serial schedule' n'
  end.

(** A sweep as a sweep of the node, between the sweeps [r1] and [r2]. *)
Definition node_of_sweep
    (calls : list Call) (r1 r2 : list Run) (out : list Effect) (st : Sweep)
    : Node :=
  {| node_this := sweep_this st;
     node_calls := calls;
     node_runs :=
       r1 ++ Build_Run (sweep_promises st)
               (match sweep_fired st with [] => false | _ => true end) :: r2;
     node_out := out ++ (Fire <$> sweep_fired st) |}.

(** What the invariant of the senders needs of the digest: transactions
    with one hash have one sender. *)
Definition hash_fixes_sender : Prop :=
  ∀ t t' : Transaction, hash t = hash t' → senderPubKey t = senderPubKey t'.

(** What holds of the pool with calls and sweeps in flight when the sweeps
    do not overlap: the invariant of the senders, every entry under the
    hash of its transaction, and every promise that has not settled is for
    an entry that is still pooled, no two of them for one hash. *)
Definition node_inv (n : Node) : Prop :=
  sender_exclusive (node_this n)
  ∧ keyed_by_hash (node_this n)
  ∧ NoDup (unsettled (node_runs n)).*1
  ∧ (∀ h t, (h, t) ∈ unsettled (node_runs n) →
            _transactions (node_this n) !! h = Some t).

(** The pool a sequence of calls of [pushTransaction] leaves. *)
Definition after_submissions
    (calls : list (Accounts * Transaction)) (this : Mempool) : Mempool :=
  foldl (λ this' call, pool (pushTransaction call.1 call.2 this')) this calls.

(** The transactions of the calls of a sequence that returned [true]. *)
Fixpoint accepted
    (calls : list (Accounts * Transaction)) (this : Mempool) : list Transaction :=
  match calls with
  | [] => []
  | (accounts, t) :: calls' =>
      let r := pushTransaction accounts t this in
      (if result r then [t] else []) ++ accepted calls' (pool r)
  end.

(** ** The work left in a sweep *)

(** The steps a promise still takes: its check resolves, its callback
    runs. *)
Definition promise_todo (p : Promise) : nat :=
  match promise_state p with
  | Pending => 2
  | Resolved _ => 1
  | Settled => 0
  end.

(** The steps left in a sweep: those of its promises, and the event. *)
Definition sweep_todo (st : Sweep) : nat :=
  (sum_list_with promise_todo (sweep_promises st)
   + match sweep_fired st with [] => 1 | _ => 0 end)%nat.

(** ** The dashboard

    [MinerUI._mempoolChanged] of the cockpit page runs on every event of the
    mempool.  At once it calls [getTransactions()] with the default
    [maxCount], shows the length of the array as the transaction count and
    removes every row; for each transaction of the array it calls
    [getSenderAddr()], and the callback of that promise, when it runs,
    appends the row of the transaction to the rows that are there then.  A
    row is the [div] made of the sender address and the transaction; its
    text, with the amounts in coins, is not modelled. *)

(** The default of the parameter [maxCount] of [getTransactions]. *)
Definition maxCount_default : Z := 5000.

Record Row := {
  row_from : Address;
  row_tx : Transaction
}.

(** The row the callback makes for [tx]. *)
Definition row_of (tx : Transaction) : Row :=
  {| row_from := getSenderAddr tx; row_tx := tx |}.

(** The two elements of the page that [_mempoolChanged] writes, and the
    transactions whose callback has not run yet. *)
Record MinerUI := {
  _mplTransactionCount : nat;
  _mplTransactions : list Row;
  callbacks : list Transaction
}.

(** [_mempoolChanged()], up to its return. *)
Definition _mempoolChanged (this : Mempool) (ui : MinerUI) : MinerUI :=
  let txs := result (getTransactions maxCount_default this) in
  {| _mplTransactionCount := length txs;
     _mplTransactions := [];
     callbacks := callbacks ui ++ txs |}.

(** The callback of one of the promises runs. *)
Inductive ui_step : MinerUI → MinerUI → Prop :=
| row_appended count rows c1 tx c2 :
    ui_step
      {| _mplTransactionCount := count; _mplTransactions := rows;
         callbacks := c1 ++ tx :: c2 |}
      {| _mplTransactionCount := count;
         _mplTransactions := rows ++ [row_of tx];
         callbacks := c1 ++ c2 |}.

End mempool.

(** ** The byte counters of the dashboard

    [MinerUI._humanBytes(bytes)] of the cockpit page scales a byte counter of
    the network to a unit.  The counter is an integral JavaScript number;
    for those up to [2 ^ 53] the division by 1024, a power of two, is exact
    on doubles, as are the comparison, [Number.isInteger] and the rounding
    of [toFixed], so the numbers are taken as exact rationals.  The [while]
    loop runs on fuel, of which the bits of the counter are enough. *)

(** [var units = ['B', 'kB', ...]] *)
Definition units : list string :=
  ["B"; "kB"; "MB"; "GB"; "TB"; "PB"; "EB"; "ZB"; "YB"].

(** [while (bytes > 1024) { bytes /= 1024; i++; }] *)
Fixpoint _humanBytes_loop (fuel : nat) (bytes : Qc) (i : nat) : option (Qc * nat) :=
  match fuel with
  | O => None
  | S fuel' =>
      if decide (Qc_of_Z 1024 < bytes)%Qc
      then _humanBytes_loop fuel' (bytes / Qc_of_Z 1024)%Qc (S i)
      else Some (bytes, i)
  end.

(** [Number.isInteger(x)] *)
Definition isInteger (x : Qc) : bool := bool_decide (Qden x = 1%positive).

(** [x.toFixed(2)] for [x] that is not negative: the nearest number of
    hundredths, the larger one on a tie, with two decimals. *)
Definition toFixed2 (x : Qc) : string :=
  let n := Qfloor (x * Qc_of_Z 100 + Q2Qc (1 # 2))%Qc in
  pretty (n / 100) +:+ "." +:+ pretty (n `mod` 100 / 10) +:+ pretty (n `mod` 10).

(** The value and the index of the unit the loop ends with. *)
Definition _humanBytes_scaled (bytes : N) : option (Qc * nat) :=
  _humanBytes_loop (S (N.to_nat (N.log2 bytes))) (Qc_of_Z (Z.of_N bytes)) 0.

(** [_humanBytes(bytes)]; a unit past the end of [units] is [undefined]. *)
Definition _humanBytes (bytes : N) : option string :=
  '(x, i) ← _humanBytes_scaled bytes;
  Some ((if isInteger x then pretty (Qfloor x) else toFixed2 x)
        +:+ " " +:+ default "undefined" (units !! i)).

(** ** A concrete instance

    Keys and addresses are numbers, the address of a sender is its key, a
    signature is the flag that it verifies, and the hash of a transaction is
    the tuple of its signed fields. *)
Module Examples.

#[export] Instance methods : TransactionMethods (nat * nat * Z * Z * Z) nat nat bool := {|
  hash t := (senderPubKey t, recipientAddr t, value t, fee t, nonce t);
  verifySignature t := signature t;
  getSenderAddr t := senderPubKey t
|}.

(** Every account holds [balance] and expects the nonce [n]. *)
Definition flat (balance n : Z) : @Accounts nat :=
  λ _, {| balance_value := balance; balance_nonce := n |}.

(** T1: sender 1 pays 10 (fee 1) to 9 with nonce 5.
    T2: sender 2 pays 7 (fee 1) to 9 with nonce 3. *)
Definition t1 : Transaction nat nat bool :=
  {| senderPubKey := 1%nat; recipientAddr := 9%nat; value := 10; fee := 1;
     nonce := 5; signature := true |}.
Definition t2 : Transaction nat nat bool :=
  {| senderPubKey := 2%nat; recipientAddr := 9%nat; value := 7; fee := 1;
     nonce := 3; signature := true |}.

(** The accounts at first: account 1 expects nonce 5, the others 3, and all
    hold 100. *)
Definition at_first : @Accounts nat :=
  λ a, {| balance_value := 100;
          balance_nonce := if decide (a = 1%nat) then 5 else 3 |}.

(** The accounts once T1 is in a block: account 1 has paid and expects
    nonce 6. *)
Definition after_block : @Accounts nat :=
  λ a, if decide (a = 1%nat)
       then {| balance_value := 89; balance_nonce := 6 |}
       else {| balance_value := 100; balance_nonce := 3 |}.

(** The pool after T1, and after T1 and T2, were pushed. *)
Definition pool1 := pool (pushTransaction at_first t1 Mempool_new).
Definition pool12 := pool (pushTransaction at_first t2 pool1).

(** A sweep of that pool when every account is empty, so that both
    transactions are stale: the state once the check of T2 has resolved, and
    the state once the callback of T2 has run, the check of T1 still
    pending. *)
Definition promise1 (s : PromiseState) : Promise :=
  {| promise_hash := hash t1; promise_transaction := t1; promise_state := s |}.
Definition promise2 (s : PromiseState) : Promise :=
  {| promise_hash := hash t2; promise_transaction := t2; promise_state := s |}.
Definition sweep1 : Sweep :=
  {| sweep_this := pool12;
     sweep_promises := [promise2 (Resolved false); promise1 Pending];
     sweep_fired := [] |}.
Definition sweep2 : Sweep :=
  {| sweep_this := evict (hash t2) t2 pool12;
     sweep_promises := [promise2 Settled; promise1 Pending];
     sweep_fired := [] |}.

(** T3: another transaction of sender 1, paying 1 to 8. *)
Definition t3 : Transaction nat nat bool :=
  {| senderPubKey := 1%nat; recipientAddr := 8%nat; value := 1; fee := 0;
     nonce := 5; signature := true |}.

(** T4: what sender 1 sends once T1 is in a block, 1 to 8 with nonce 6. *)
Definition t4 : Transaction nat nat bool :=
  {| senderPubKey := 1%nat; recipientAddr := 8%nat; value := 1; fee := 0;
     nonce := 6; signature := true |}.

(** Two sweeps that overlap.  T1 is pushed and admitted; the block with T1
    and the block after it arrive, and a head change follows the other, so
    that two sweeps hold a promise for T1; T4 is pushed.  The check of the
    first sweep resolves, finds T1 stale, and its callback removes T1 and
    its sender; the call for T4 goes on and admits T4, of the same sender;
    the check of the second sweep resolves, finds T1 stale, and its callback
    removes that sender again. *)
Definition overlap : list Action :=
  [ push_called t1; push_hashed 0; push_verified at_first 0; push_returns 0;
    head_changed; head_changed;
    push_called t4; push_hashed 1;
    check_resolved after_block 0 0; callback_runs 0 0;
    push_verified after_block 1; push_returns 1;
    check_resolved after_block 1 0; callback_runs 1 0 ].

(** Where that schedule ends: T4 is pooled and no sender is recorded. *)
Definition broken : @Node (nat * nat * Z * Z * Z) nat nat bool _ _ _ _ :=
  {| node_this := {| _transactions := {[hash t4 := t4]}; _senderPubKeys := ∅ |};
     node_calls := [Build_Call t1 (Returned true); Build_Call t4 (Returned true)];
     node_runs := [Build_Run [promise1 Settled] false;
                   Build_Run [promise1 Settled] false];
     node_out := [Fire (transaction_added t1); Fire (transaction_added t4)] |}.

(** Sweeps in turn.  T1 is admitted and T2 pushed; a head change comes
    while the call for T2 is under way; the sweep removes T1, T2 is admitted
    and the sweep returns before the next head change. *)
Definition in_turn : list Action :=
  [ push_called t1; push_hashed 0; push_verified at_first 0; push_returns 0;
    push_called t2; head_changed; push_hashed 1;
    check_resolved after_block 0 0; push_verified at_first 1;
    callback_runs 0 0; push_returns 1; sweep_returns 0;
    head_changed ].

(** Where that schedule ends. *)
Definition served : @Node (nat * nat * Z * Z * Z) nat nat bool _ _ _ _ :=
  {| node_this := {| _transactions := {[hash t2 := t2]};
                     _senderPubKeys := {[2%nat]} |};
     node_calls := [Build_Call t1 (Returned true); Build_Call t2 (Returned true)];
     node_runs := [Build_Run [promise1 Settled] true;
                   Build_Run [promise2 Pending] false];
     node_out := [Fire (transaction_added t1); Fire (transaction_added t2);
                  Fire transactions_ready] |}.



(** The page before the first event of the mempool. *)
Definition page : @MinerUI nat nat bool :=
  {| _mplTransactionCount := 0; _mplTransactions := []; callbacks := [] |}.


(** The page once the callback of T2 has run. *)
Definition page1 : @MinerUI nat nat bool :=
  {| _mplTransactionCount := 2; _mplTransactions := [row_of t2];
     callbacks := [t1] |}.

End Examples.

Section properties.

Context {Hash PublicKey Address Signature : Type}.
Context `{!EqDecision Hash, !Countable Hash}.
Context `{!EqDecision PublicKey, !Countable PublicKey}.
Context `{!EqDecision Address}.
Context `{!TransactionMethods Hash PublicKey Address Signature}.

Local Abbreviation Transaction := (Transaction PublicKey Address Signature).
Local Abbreviation Mempool := (@Mempool Hash PublicKey Address Signature _ _ _ _).
Local Abbreviation Accounts := (@Accounts Address).
Local Abbreviation Node := (@Node Hash PublicKey Address Signature _ _ _ _).
Implicit Types (this : Mempool) (t : Transaction) (accounts : Accounts).
Implicit Types (h : Hash) (l : list (Hash * Transaction)).

(** * Properties *)

(** ** Numbers *)

Lemma round_double_exact n : - 2 ^ 53 ≤ n ≤ 2 ^ 53 → round_double n = n.
Proof.
  intros Hn. unfold round_double.
  destruct (Z.leb_spec (Z.log2 (Z.abs n) - 52) 0) as [|He]; [done|].
  destruct (decide (n = 0)) as [->|Hne]; [done|].
  assert (2 ^ 53 ≤ Z.abs n) as Hge.
  { apply Z.log2_le_pow2; lia. }
  assert (n = 2 ^ 53 ∨ n = - 2 ^ 53) as [->| ->] by lia; done.
Qed.

Lemma stale_exact accounts t :
  - 2 ^ 53 ≤ value t + fee t ≤ 2 ^ 53 →
  stale accounts t ↔ spec_stale accounts t.
Proof.
  intros Hn. unfold stale, spec_stale, add_double.
  by rewrite round_double_exact.
Qed.


(** ** Admission *)

Lemma pushTransaction_submit_spec accounts t this :
  pushTransaction accounts t this = submit_spec accounts t this.
Proof.
  unfold pushTransaction, submit_spec, first_failure.
  unfold _verifyTransaction, _verifyTransactionBalance.
  unfold mbind, M_bind, bind, gets, log, fire, modify, when, ret, admitted; simpl.
  destruct (decide (is_Some (_transactions this !! hash t))) as [Hk|Hk].
  { by rewrite bool_decide_eq_true_2. }
  rewrite bool_decide_eq_false_2 by done.
  destruct (verifySignature t) eqn:Hsig; simpl; [|done].
  destruct (decide (getSenderAddr t = recipientAddr t)) as [Heq|Hne].
  { by rewrite bool_decide_eq_true_2. }
  rewrite bool_decide_eq_false_2 by done.
  destruct (decide (balance_value (accounts (getSenderAddr t)) < add_double (value t) (fee t)))
    as [Hlt|Hge].
  { apply Z.ltb_lt in Hlt. by rewrite Hlt. }
  apply Z.ltb_nlt in Hge. rewrite Hge.
  destruct (decide (balance_nonce (accounts (getSenderAddr t)) ≠ nonce t))
    as [Hn|Hn].
  { by rewrite bool_decide_eq_false_2. }
  apply dec_stable in Hn. rewrite bool_decide_eq_true_2 by done. simpl.
  destruct (decide (senderPubKey t ∈ _senderPubKeys this)) as [Hs|Hs].
  { by rewrite bool_decide_eq_true_2. }
  by rewrite bool_decide_eq_false_2.
Qed.

Lemma first_failure_None accounts t this :
  first_failure accounts t this = None ↔
    _transactions this !! hash t = None
    ∧ verifySignature t = true
    ∧ getSenderAddr t ≠ recipientAddr t
    ∧ add_double (value t) (fee t) ≤ balance_value (accounts (getSenderAddr t))
    ∧ balance_nonce (accounts (getSenderAddr t)) = nonce t
    ∧ senderPubKey t ∉ _senderPubKeys this.
Proof.
  unfold first_failure. split.
  - repeat case_decide; try done. intros _. split_and!; try done; try lia.
    + by apply eq_None_not_Some.
    + by destruct (verifySignature t).
  - intros (Hk & Hsig & Hself & Hbal & Hnonce & Hsender).
    rewrite decide_False by (by rewrite Hk; intros [? ?]).
    rewrite decide_False by congruence.
    rewrite decide_False by done.
    rewrite decide_False by lia.
    rewrite decide_False by (by intros []).
    by rewrite decide_False.
Qed.

Lemma pushTransaction_result accounts t this :
  result (pushTransaction accounts t this)
  = bool_decide (first_failure accounts t this = None).
Proof.
  rewrite pushTransaction_submit_spec. unfold submit_spec.
  by destruct (first_failure accounts t this).
Qed.

(** A call that returns [false] leaves the pool as it was. *)
Lemma pushTransaction_false accounts t this :
  result (pushTransaction accounts t this) = false →
  pool (pushTransaction accounts t this) = this.
Proof.
  rewrite pushTransaction_submit_spec. unfold submit_spec.
  by destruct (first_failure accounts t this).
Qed.

(** A call that returns [true] leaves the pool with [t] admitted. *)
Lemma pushTransaction_true accounts t this :
  result (pushTransaction accounts t this) = true →
  first_failure accounts t this = None
  ∧ pool (pushTransaction accounts t this) = admitted t this
  ∧ output (pushTransaction accounts t this) = [Fire (transaction_added t)].
Proof.
  rewrite pushTransaction_submit_spec. unfold submit_spec.
  by destruct (first_failure accounts t this).
Qed.

(** X17: the admission pipeline as the code runs it.  [pushTransaction]
    returns [true] exactly when the six checks pass (unknown hash, valid
    signature, sender other than recipient, balance of at least the sum the
    code computes of value and fee, expected nonce, sender not in
    [_senderPubKeys]); the checks are made in this order and the first that
    fails ends the call, as [submit_spec] spells out, with the log line of
    that check; a call that returns [true] has put the transaction under its
    hash into [_transactions], added its sender to [_senderPubKeys] and
    fired [transaction-added] with it.  When value plus fee is at most
    [2 ^ 53] the sum is exact, and the checks are those of the
    specification. *)
Theorem pushTransaction_pipeline accounts t this :
  (result (pushTransaction accounts t this) = true ↔
     _transactions this !! hash t = None
     ∧ verifySignature t = true
     ∧ getSenderAddr t ≠ recipientAddr t
     ∧ add_double (value t) (fee t) ≤ balance_value (accounts (getSenderAddr t))
     ∧ balance_nonce (accounts (getSenderAddr t)) = nonce t
     ∧ senderPubKey t ∉ _senderPubKeys this)
  ∧ pushTransaction accounts t this = submit_spec accounts t this
  ∧ (result (pushTransaction accounts t this) = true →
       _transactions (pool (pushTransaction accounts t this))
         = <[hash t := t]> (_transactions this)
       ∧ _senderPubKeys (pool (pushTransaction accounts t this))
         = {[senderPubKey t]} ∪ _senderPubKeys this
       ∧ fired (output (pushTransaction accounts t this)) = [transaction_added t])
  ∧ (- 2 ^ 53 ≤ value t + fee t ≤ 2 ^ 53 →
       (result (pushTransaction accounts t this) = true
        ↔ spec_admissible accounts t this)).
Proof.
  split_and!.
  - by rewrite pushTransaction_result, bool_decide_eq_true, first_failure_None.
  - apply pushTransaction_submit_spec.
  - intros (_ & -> & ->)%pushTransaction_true. done.
  - intros Hn.
    rewrite pushTransaction_result, bool_decide_eq_true, first_failure_None.
    unfold spec_admissible, add_double. by rewrite round_double_exact.
Qed.

(** C4: whatever the reason of the rejection, a call of [pushTransaction]
    that returns [false] leaves [_transactions] and [_senderPubKeys] exactly
    as they were. *)
Theorem pushTransaction_rejected_unchanged accounts t this :
  result (pushTransaction accounts t this) = false →
  _transactions (pool (pushTransaction accounts t this)) = _transactions this
  ∧ _senderPubKeys (pool (pushTransaction accounts t this)) = _senderPubKeys this.
Proof. by intros ->%pushTransaction_false. Qed.

(** ** Eviction *)

(** A run of [m ≫= k] from the run of [m]. *)
Lemma bind_run {A B} (m : M A) (k : A → M B) this a this' out :
  m this = (a, this', out) →
  (m ≫= k) this
  = (result (k a this'), pool (k a this'), out ++ output (k a this')).
Proof.
  intros Hm. unfold mbind, M_bind, bind. rewrite Hm.
  by destruct (k a this') as [[b this''] out'].
Qed.

Lemma _verifyTransactionBalance_quiet accounts t this :
  _verifyTransactionBalance accounts t true this
  = (bool_decide (¬ stale accounts t), this, []).
Proof.
  unfold _verifyTransactionBalance, stale, mbind, M_bind, bind, when, ret, log.
  simpl. destruct (Z.ltb_spec (balance_value (accounts (getSenderAddr t)))
                     (add_double (value t) (fee t))) as [Hlt|Hge].
  { rewrite bool_decide_eq_false_2; [done | intros Hs; apply Hs; by left]. }
  case_bool_decide as Hn; simpl.
  - rewrite bool_decide_eq_true_2; [done | lia].
  - rewrite bool_decide_eq_false_2; [done | intros Hs; apply Hs; by right].
Qed.

Lemma evict_comm h1 t1 h2 t2 this :
  evict h1 t1 (evict h2 t2 this) = evict h2 t2 (evict h1 t1 this).
Proof.
  unfold evict; simpl. f_equal; [apply delete_delete|].
  apply set_eq. intros pk. rewrite !elem_of_difference. naive_solver.
Qed.

Lemma remove_entries_evict h t l this :
  remove_entries l (evict h t this) = evict h t (remove_entries l this).
Proof.
  induction l as [|[h' t'] l IH]; simpl; [done|].
  by rewrite IH, evict_comm.
Qed.

Lemma lookup_remove_entries l this h :
  _transactions (remove_entries l this) !! h
  = if decide (h ∈ l.*1) then None else _transactions this !! h.
Proof.
  induction l as [|[h' t'] l IH]; simpl.
  { done. }
  rewrite lookup_delete, IH.
  destruct (decide (h' = h)) as [->|Hne].
  - by rewrite decide_True by apply list_elem_of_here.
  - repeat case_decide; set_solver.
Qed.

Lemma elem_of_senders_remove_entries l this (pk : PublicKey) :
  pk ∈ _senderPubKeys (remove_entries l this)
  ↔ pk ∈ _senderPubKeys this ∧ pk ∉ senderPubKey <$> l.*2.
Proof.
  induction l as [|[h' t'] l IH]; simpl; [set_solver|].
  rewrite elem_of_difference, IH. set_solver.
Qed.

Lemma for_each_evict accounts l this :
  for_each (λ '(h, t),
    isValid ← _verifyTransactionBalance accounts t true;
    evict_then h t isValid) l this
  = (tt, remove_entries (filter (λ e, stale accounts e.2) l) this, []).
Proof.
  revert this. induction l as [|[h t] l IH]; intros this; [done|].
  simpl. destruct (decide (stale accounts t)) as [Hs|Hs].
  - rewrite filter_cons_True by done.
    erewrite bind_run; last first.
    { erewrite bind_run by apply _verifyTransactionBalance_quiet.
      rewrite bool_decide_eq_false_2 by tauto. done. }
    rewrite IH. unfold result, pool, output; simpl.
    by rewrite remove_entries_evict.
  - rewrite filter_cons_False by done.
    erewrite bind_run; last first.
    { erewrite bind_run by apply _verifyTransactionBalance_quiet.
      rewrite bool_decide_eq_true_2 by done. done. }
    by rewrite IH.
Qed.

(** The loop finds a transaction for every key: the promises are made for
    the entries of the map. *)
Lemma promised_entries this : promised this = map_to_list (_transactions this).
Proof.
  unfold promised, keys.
  assert (∀ e, e ∈ map_to_list (_transactions this) →
               _transactions this !! e.1 = Some e.2) as Hin.
  { intros e. apply elem_of_map_to_list'. }
  induction (map_to_list (_transactions this)) as [|[h t] l IH]; [done|].
  rewrite fmap_cons. cbn [omap list_omap fst].
  pose proof (Hin (h, t) ltac:(left)) as Ht. simpl in Ht. rewrite Ht.
  simpl. rewrite IH; [done|]. intros e He. apply Hin. by right.
Qed.

(** The run of a sweep: the stale entries are gone, nothing is logged and
    [transactions-ready] is fired. *)
Lemma _evictTransactions_run accounts this :
  _evictTransactions accounts this
  = (tt, remove_entries (stale_entries accounts this) this,
     [Fire transactions_ready]).
Proof.
  unfold _evictTransactions.
  erewrite bind_run by done.
  erewrite bind_run by apply for_each_evict.
  by rewrite promised_entries.
Qed.

Lemma elem_of_stale_entries accounts this h t :
  (h, t) ∈ stale_entries accounts this
  ↔ _transactions this !! h = Some t ∧ stale accounts t.
Proof.
  unfold stale_entries. rewrite list_elem_of_filter, elem_of_map_to_list.
  simpl. tauto.
Qed.

Lemma elem_of_stale_keys accounts this h :
  h ∈ (stale_entries accounts this).*1
  ↔ ∃ t, _transactions this !! h = Some t ∧ stale accounts t.
Proof.
  rewrite list_elem_of_fmap. split.
  - intros ([h' t] & -> & Hin). exists t. by apply elem_of_stale_entries.
  - intros (t & Hin). exists (h, t). split; [done|].
    by apply elem_of_stale_entries.
Qed.

Lemma lookup_evicted accounts this h t :
  _transactions (pool (_evictTransactions accounts this)) !! h = Some t
  ↔ _transactions this !! h = Some t ∧ ¬ stale accounts t.
Proof.
  rewrite _evictTransactions_run. unfold pool; simpl.
  rewrite lookup_remove_entries. case_decide as Hin.
  - apply elem_of_stale_keys in Hin as (t' & Ht' & Hs).
    split; [done|]. intros [? ?]. by simplify_eq.
  - split; [|tauto]. intros Ht. split; [done|]. intros Hs.
    apply Hin, elem_of_stale_keys. eauto.
Qed.

Lemma elem_of_senders_evicted accounts this (pk : PublicKey) :
  pk ∈ _senderPubKeys (pool (_evictTransactions accounts this))
  ↔ pk ∈ _senderPubKeys this
    ∧ ¬ ∃ h t, _transactions this !! h = Some t ∧ stale accounts t
               ∧ senderPubKey t = pk.
Proof.
  rewrite _evictTransactions_run. unfold pool; simpl.
  rewrite elem_of_senders_remove_entries.
  apply and_iff_compat_l, not_iff_compat.
  rewrite list_elem_of_fmap. split.
  - intros (t & -> & ([h t'] & -> & Hin)%list_elem_of_fmap).
    apply elem_of_stale_entries in Hin as [? ?]. eauto.
  - intros (h & t & Ht & Hs & <-). exists t. split; [done|].
    apply list_elem_of_fmap. exists (h, t). split; [done|].
    by apply elem_of_stale_entries.
Qed.

(** X18: a sweep as the code runs it.  [_evictTransactions] removes from
    [_transactions] exactly the pooled transactions that
    [_verifyTransactionBalance] rejects (balance of the sender below the sum
    the code computes of value and fee, or nonce other than the one the
    account expects) and keeps every other entry as it was, removes from
    [_senderPubKeys] exactly the senders of the removed transactions, and
    fires [transactions-ready] exactly once, as its only output.  For a
    transaction whose value plus fee is at most [2 ^ 53] the sum is exact,
    and the transaction stays exactly when the specification keeps it. *)
Theorem _evictTransactions_exact accounts this :
  (∀ h t,
     _transactions (pool (_evictTransactions accounts this)) !! h = Some t
     ↔ _transactions this !! h = Some t
       ∧ ¬ (balance_value (accounts (getSenderAddr t)) < add_double (value t) (fee t)
            ∨ balance_nonce (accounts (getSenderAddr t)) ≠ nonce t))
  ∧ (∀ pk : PublicKey,
       pk ∈ _senderPubKeys (pool (_evictTransactions accounts this))
       ↔ pk ∈ _senderPubKeys this
         ∧ ¬ ∃ h t, _transactions this !! h = Some t
                    ∧ (balance_value (accounts (getSenderAddr t)) < add_double (value t) (fee t)
                       ∨ balance_nonce (accounts (getSenderAddr t)) ≠ nonce t)
                    ∧ senderPubKey t = pk)
  ∧ output (_evictTransactions accounts this) = [Fire transactions_ready]
  ∧ (∀ h t,
       - 2 ^ 53 ≤ value t + fee t ≤ 2 ^ 53 →
       (_transactions (pool (_evictTransactions accounts this)) !! h = Some t
        ↔ _transactions this !! h = Some t ∧ ¬ spec_stale accounts t)).
Proof.
  split_and!.
  - intros h t. apply lookup_evicted.
  - intros pk. apply elem_of_senders_evicted.
  - by rewrite _evictTransactions_run.
  - intros h t Hn. by rewrite lookup_evicted, stale_exact.
Qed.

(** C10: a sweep only removes.  After it [_transactions] is included in
    what it was, so that every hash still in it maps to the transaction it
    mapped to before, and [_senderPubKeys] is included in what it was. *)
Theorem _evictTransactions_only_removes accounts this :
  _transactions (pool (_evictTransactions accounts this)) ⊆ _transactions this
  ∧ _senderPubKeys (pool (_evictTransactions accounts this)) ⊆ _senderPubKeys this
  ∧ (∀ h t,
       _transactions (pool (_evictTransactions accounts this)) !! h = Some t →
       _transactions this !! h = Some t).
Proof.
  split_and!.
  - apply map_subseteq_spec. intros h t Ht. by apply lookup_evicted in Ht as [? _].
  - apply elem_of_subseteq. intros pk Hpk.
    by apply elem_of_senders_evicted in Hpk as [? _].
  - intros h t Ht. by apply lookup_evicted in Ht as [? _].
Qed.

Lemma stale_entries_evicted accounts this :
  stale_entries accounts (pool (_evictTransactions accounts this)) = [].
Proof.
  apply elem_of_nil_inv. intros [h t] [Ht Hs]%elem_of_stale_entries.
  by apply lookup_evicted in Ht as [_ ?].
Qed.

(** C6: a second sweep under the same accounts removes nothing.  The pool
    after it is the pool after the first sweep, and every entry the first
    sweep kept is still there. *)
Theorem _evictTransactions_idempotent accounts this :
  pool (_evictTransactions accounts (pool (_evictTransactions accounts this)))
  = pool (_evictTransactions accounts this)
  ∧ (∀ h t,
       _transactions (pool (_evictTransactions accounts this)) !! h = Some t →
       _transactions
         (pool (_evictTransactions accounts
                  (pool (_evictTransactions accounts this)))) !! h = Some t).
Proof.
  assert (pool (_evictTransactions accounts (pool (_evictTransactions accounts this)))
          = pool (_evictTransactions accounts this)) as Heq.
  { rewrite (_evictTransactions_run accounts (pool _)).
    by rewrite stale_entries_evicted. }
  split; [done|]. intros h t Ht. by rewrite Heq.
Qed.

(** ** The invariants *)

Lemma sender_exclusive_new : sender_exclusive (Mempool_new : Mempool).
Proof.
  unfold sender_exclusive, Mempool_new, _transactions, _senderPubKeys.
  split_and!.
  - intros h t Ht. by rewrite lookup_empty in Ht.
  - intros h1 t1 h2 t2 Ht. by rewrite lookup_empty in Ht.
  - by rewrite map_size_empty, size_empty.
Qed.

Lemma sender_exclusive_admitted t this :
  sender_exclusive this →
  _transactions this !! hash t = None →
  senderPubKey t ∉ _senderPubKeys this →
  sender_exclusive (admitted t this).
Proof.
  intros (Hin & Hinj & Hsize) Hfresh Hsender. split_and!; simpl.
  - intros h t' [[<- <-]|[Hne Ht']]%lookup_insert_Some; [set_solver|].
    apply elem_of_union_r. eauto.
  - intros h1 t1 h2 t2 [[<- <-]|[Hne1 Ht1]]%lookup_insert_Some
                       [[<- <-]|[Hne2 Ht2]]%lookup_insert_Some Heq; [done|..].
    + destruct Hsender. rewrite Heq. eauto.
    + destruct Hsender. rewrite <-Heq. eauto.
    + eauto.
  - rewrite map_size_insert_None by done.
    rewrite size_union by set_solver. rewrite size_singleton, Hsize. done.
Qed.

Lemma sender_exclusive_evict h t this :
  sender_exclusive this →
  _transactions this !! h = Some t →
  sender_exclusive (evict h t this).
Proof.
  intros (Hin & Hinj & Hsize) Ht. split_and!; simpl.
  - intros h' t' [Hne Ht']%lookup_delete_Some.
    apply elem_of_difference. split; [eauto|].
    rewrite elem_of_singleton. intros Heq. destruct Hne.
    apply (Hinj h t h' t'); [done|done|congruence].
  - intros h1 t1 h2 t2 [_ Ht1]%lookup_delete_Some [_ Ht2]%lookup_delete_Some.
    eauto.
  - rewrite map_size_delete_Some by eauto.
    rewrite size_difference by (apply singleton_subseteq_l; eauto).
    rewrite size_singleton, Hsize. lia.
Qed.

Lemma sender_exclusive_remove_entries l this :
  NoDup l.*1 →
  (∀ h t, (h, t) ∈ l → _transactions this !! h = Some t) →
  sender_exclusive this →
  sender_exclusive (remove_entries l this).
Proof.
  intros Hnd Hl Hinv. induction l as [|[h t] l IH]; simpl; [done|].
  simpl in Hnd. apply NoDup_cons in Hnd as [Hh Hnd].
  apply sender_exclusive_evict.
  - apply IH; [done|]. intros h' t' Hin. apply Hl. by right.
  - rewrite lookup_remove_entries, decide_False by done.
    apply Hl. by left.
Qed.

Lemma NoDup_stale_keys accounts this : NoDup (stale_entries accounts this).*1.
Proof.
  apply (sublist_NoDup _ (map_to_list (_transactions this)).*1).
  - apply NoDup_fst_map_to_list.
  - apply fmap_sublist, sublist_filter.
Qed.

Lemma sender_exclusive_pushTransaction accounts t this :
  sender_exclusive this →
  sender_exclusive (pool (pushTransaction accounts t this)).
Proof.
  intros Hinv. destruct (result (pushTransaction accounts t this)) eqn:Hr.
  - apply pushTransaction_true in Hr as (Hnone & -> & _).
    apply first_failure_None in Hnone as (? & _ & _ & _ & _ & ?).
    by apply sender_exclusive_admitted.
  - by rewrite pushTransaction_false.
Qed.

Lemma sender_exclusive_evictTransactions accounts this :
  sender_exclusive this →
  sender_exclusive (pool (_evictTransactions accounts this)).
Proof.
  intros Hinv. rewrite _evictTransactions_run. unfold pool; simpl.
  apply sender_exclusive_remove_entries; [apply NoDup_stale_keys| |done].
  intros h t' Hin. by apply elem_of_stale_entries in Hin as [? _].
Qed.

(** ** Lookup and listing *)

Lemma getTransactions_loop_take maxCount (values transactions : list Transaction) :
  getTransactions_loop maxCount values transactions
  = transactions ++ take (Z.to_nat maxCount - length transactions)%nat values.
Proof.
  revert transactions.
  induction values as [|transaction values IH]; intros transactions; simpl.
  { by rewrite take_nil, app_nil_r. }
  destruct (Z.geb_spec (Z.of_nat (length transactions)) maxCount) as [Hge|Hlt].
  - replace (Z.to_nat maxCount - length transactions)%nat with 0%nat by lia.
    by rewrite app_nil_r.
  - rewrite IH, length_app, <-app_assoc. simpl.
    replace (Z.to_nat maxCount - length transactions)%nat
      with (S (Z.to_nat maxCount - (length transactions + 1)))%nat by lia.
    done.
Qed.

Lemma getTransactions_run maxCount this :
  getTransactions maxCount this
  = (take (Z.to_nat maxCount) (map_to_list (_transactions this)).*2, this, []).
Proof.
  unfold getTransactions. erewrite bind_run by done.
  unfold mret, M_ret, ret, result, pool, output; simpl.
  by rewrite getTransactions_loop_take, Nat.sub_0_r.
Qed.

(** C8: for a [maxCount] that is not negative, [getTransactions] returns at
    most [maxCount] transactions, all of them pooled; it returns all the
    values of [_transactions] when [maxCount] is at least their number; and
    it leaves the pool as it was. *)
Theorem getTransactions_bound maxCount this :
  0 ≤ maxCount →
  Z.of_nat (length (result (getTransactions maxCount this))) ≤ maxCount
  ∧ (∀ t, t ∈ result (getTransactions maxCount this) →
       ∃ h, _transactions this !! h = Some t)
  ∧ (Z.of_nat (size (_transactions this)) ≤ maxCount →
       result (getTransactions maxCount this)
       = (map_to_list (_transactions this)).*2)
  ∧ pool (getTransactions maxCount this) = this.
Proof.
  intros Hpos. rewrite getTransactions_run. unfold result, pool; simpl.
  split_and!; [| | |done].
  - rewrite length_take. lia.
  - intros t (i & Hin%list_elem_of_lookup_2 & _)%elem_of_take.
    apply list_elem_of_fmap in Hin as ([h t'] & -> & Hin).
    exists h. by apply elem_of_map_to_list.
  - intros Hsize. apply take_ge.
    rewrite length_fmap, length_map_to_list. lia.
Qed.

(** ** Repeated calls *)

Lemma pushTransaction_known accounts t this :
  is_Some (_transactions this !! hash t) →
  pushTransaction accounts t this
  = (false, this, [Log (Ignoring_known_transaction (hash t))]).
Proof.
  intros Hk. rewrite pushTransaction_submit_spec.
  unfold submit_spec, first_failure. by rewrite decide_True.
Qed.

Lemma lookup_admitted t this :
  _transactions (admitted t this) !! hash t = Some t.
Proof. apply lookup_insert_eq. Qed.

(** Calls that return [false] leave the pool where it was. *)
Lemma submissions_rejected (calls : list (Accounts * Transaction)) this o :
  Forall (λ o, result o = false) (submissions calls this) →
  o ∈ submissions calls this →
  pool o = this.
Proof.
  revert this. induction calls as [|[accounts t] calls IH]; intros this; simpl.
  { by intros _ ?%elem_of_nil. }
  intros [Hr Hall]%Forall_cons.
  rewrite (pushTransaction_false _ _ _ Hr) in Hall |- *.
  intros [->|Hin]%elem_of_cons; [by apply pushTransaction_false | by apply IH].
Qed.

(** Once the hash of [t] is in the pool every further call with [t] is
    ignored as known. *)
Lemma submissions_known (accountss : list Accounts) t this :
  is_Some (_transactions this !! hash t) →
  submissions ((λ accounts, (accounts, t)) <$> accountss) this
  = (λ _, (false, this, [Log (Ignoring_known_transaction (hash t))]))
      <$> accountss.
Proof.
  intros Hk. induction accountss as [|accounts accountss IH]; [done|].
  rewrite !fmap_cons. cbn [submissions].
  rewrite pushTransaction_known by done. unfold pool at 1. cbn [fst snd].
  by rewrite IH.
Qed.

Lemma submissions_after_success (accountss : list Accounts) t this i j o o' :
  (i < j)%nat →
  submissions ((λ accounts, (accounts, t)) <$> accountss) this !! i = Some o →
  result o = true →
  submissions ((λ accounts, (accounts, t)) <$> accountss) this !! j = Some o' →
  is_Some (_transactions (pool o) !! hash t)
  ∧ o' = (false, pool o, [Log (Ignoring_known_transaction (hash t))]).
Proof.
  revert this i j.
  induction accountss as [|accounts accountss IH]; intros this i j Hij.
  { by destruct i. }
  rewrite fmap_cons. cbn [submissions].
  destruct j as [|j]; [lia|]. destruct i as [|i]; cbn [lookup list_lookup].
  - intros [= <-] Hr. apply pushTransaction_true in Hr as (_ & Hpool & _).
    assert (is_Some (_transactions (pool (pushTransaction accounts t this))
                       !! hash t)) as Hk.
    { rewrite Hpool, lookup_admitted. eauto. }
    rewrite submissions_known by done. intros Ho'.
    by apply list_lookup_fmap_Some in Ho' as (_ & -> & _).
  - apply IH. lia.
Qed.

Lemma submissions_same accounts t this n :
  result (pushTransaction accounts t this) = false →
  submissions (replicate n (accounts, t)) this
  = replicate n (pushTransaction accounts t this).
Proof.
  intros Hr. induction n as [|n IH]; simpl; [done|].
  by rewrite (pushTransaction_false _ _ _ Hr), IH.
Qed.

Lemma fmap_replicate_call accounts t n :
  (λ accounts, (accounts, t)) <$> replicate n accounts
  = replicate n (accounts, t).
Proof. by rewrite fmap_replicate. Qed.

Lemma keyed_by_hash_reachable this : reachable this → keyed_by_hash this.
Proof.
  induction 1 as [|accounts t this _ IH|accounts this _ IH].
  - intros h t Ht. simpl in Ht. by rewrite lookup_empty in Ht.
  - destruct (result (pushTransaction accounts t this)) eqn:Hr.
    + apply pushTransaction_true in Hr as (_ & -> & _).
      intros h t'. simpl.
      intros [[<- <-]|[_ Ht']]%lookup_insert_Some; [done | by apply IH].
    + by rewrite pushTransaction_false.
  - intros h t [Ht _]%lookup_evicted. by apply IH.
Qed.

(** C5: of the calls of [pushTransaction] with one transaction [t] made in
    a row, only the first can return [true]: under accounts that stay the
    same every later call returns [false], and whatever the accounts are,
    once a call has returned [true] the hash of [t] is in [_transactions]
    and every later call is ignored as known, returns [false] and leaves the
    pool as it is.  In a pool that a sequence of operations leads to, every
    entry is stored under the hash of its transaction and no key occurs
    twice. *)
Theorem pushTransaction_only_first t this :
  (∀ accounts n j o,
     (0 < j)%nat →
     submissions (replicate n (accounts, t)) this !! j = Some o →
     result o = false)
  ∧ (∀ (accountss : list Accounts) i j o o',
       (i < j)%nat →
       submissions ((λ accounts, (accounts, t)) <$> accountss) this !! i = Some o →
       result o = true →
       submissions ((λ accounts, (accounts, t)) <$> accountss) this !! j = Some o' →
       is_Some (_transactions (pool o) !! hash t)
       ∧ result o' = false
       ∧ pool o' = pool o
       ∧ output o' = [Log (Ignoring_known_transaction (hash t))])
  ∧ (reachable this →
       (∀ h t', _transactions this !! h = Some t' → hash t' = h)
       ∧ NoDup (map_to_list (_transactions this)).*1).
Proof.
  split_and!.
  - intros accounts n j o Hj Ho.
    destruct (result (pushTransaction accounts t this)) eqn:Hr.
    + rewrite <-fmap_replicate_call in Ho.
      destruct n as [|n]; [by destruct j|].
      by destruct (submissions_after_success (replicate (S n) accounts) t this
                     0%nat j (pushTransaction accounts t this) o) as (_ & ->).
    + rewrite submissions_same in Ho by done.
      by apply lookup_replicate in Ho as [-> _].
  - intros accountss i j o o' Hij Ho Hr Ho'.
    by destruct (submissions_after_success accountss t this i j o o')
      as (? & ->).
  - intros Hreach. split; [by apply keyed_by_hash_reachable|].
    apply NoDup_fst_map_to_list.
Qed.

(** C9: after a call of [pushTransaction] that returned [true],
    [getTransaction] with the hash of the transaction returns it, and keeps
    returning it after any further calls of [pushTransaction] that return
    [false]. *)
Theorem getTransaction_pushTransaction accounts t this
    (calls : list (Accounts * Transaction)) o :
  result (pushTransaction accounts t this) = true →
  Forall (λ o, result o = false)
    (submissions calls (pool (pushTransaction accounts t this))) →
  o ∈ pushTransaction accounts t this
      :: submissions calls (pool (pushTransaction accounts t this)) →
  result (getTransaction (hash t) (pool o)) = Some t
  ∧ pool (getTransaction (hash t) (pool o)) = pool o.
Proof.
  intros Hr Hall Hin. split; [|done].
  assert (pool o = pool (pushTransaction accounts t this)) as ->.
  { apply elem_of_cons in Hin as [->|Hin]; [done|].
    by apply (submissions_rejected calls). }
  apply pushTransaction_true in Hr as (_ & -> & _).
  apply lookup_admitted.
Qed.

(** ** The promises of a sweep *)

Lemma remove_entries_middle l1 (e : Hash * Transaction) l2 this :
  remove_entries (l1 ++ e :: l2) this
  = evict e.1 e.2 (remove_entries (l1 ++ l2) this).
Proof.
  unfold remove_entries. rewrite !foldr_app. simpl.
  apply (remove_entries_evict e.1 e.2 l1).
Qed.

Lemma settled_stale_middle accounts (l1 : list Promise) p (l2 : list Promise) :
  settled_stale accounts (l1 ++ p :: l2)
  = settled_stale accounts l1
    ++ (if decide (promise_state p = Settled
                   ∧ stale accounts (promise_transaction p))
        then [promise_entry p] else [])
    ++ settled_stale accounts l2.
Proof.
  unfold settled_stale. rewrite filter_app, filter_cons, fmap_app.
  by case_decide.
Qed.

Lemma settled_stale_all accounts (l : list Promise) :
  Forall (λ p, promise_state p = Settled) l →
  settled_stale accounts l
  = filter (λ e, stale accounts e.2) (promise_entry <$> l).
Proof.
  unfold settled_stale. induction 1 as [|p l Hp _ IH]; [done|].
  rewrite fmap_cons, !filter_cons. simpl.
  destruct (decide (stale accounts (promise_transaction p))) as [Hs|Hs].
  - rewrite decide_True by done. by rewrite fmap_cons, IH.
  - rewrite decide_False by tauto. done.
Qed.

Lemma sweep_inv_start accounts this : sweep_inv accounts this (sweep_start this).
Proof.
  unfold sweep_inv, sweep_start; simpl. rewrite promised_entries. split_and!.
  - rewrite <-list_fmap_compose. rewrite <-(list_fmap_id (map_to_list _)) at 2.
    apply list_fmap_ext. by intros i [h t] _.
  - intros p isValid (e & -> & _)%list_elem_of_fmap. done.
  - unfold settled_stale.
    induction (map_to_list (_transactions this)) as [|e l IH]; [done|].
    rewrite fmap_cons, filter_cons_False by (by intros [? _]). done.
  - by left.
Qed.

Lemma sweep_inv_step accounts this st st' :
  sweep_inv accounts this st →
  sweep_step accounts st st' →
  sweep_inv accounts this st'.
Proof.
  intros (Hent & Hres & Hpool & Hfired) Hstep.
  destruct Hstep as [cur l1 h t l2 evs|cur l1 h t isValid l2 evs|cur l Hall];
    unfold sweep_inv; simpl in *.
  - split_and!.
    + by rewrite fmap_app, fmap_cons in Hent |- *.
    + intros p isValid [Hin|[->|Hin]%elem_of_cons]%elem_of_app Hp.
      * apply Hres; [|done]. apply elem_of_app. by left.
      * simpl in Hp. injection Hp as <-.
        by rewrite _verifyTransactionBalance_quiet.
      * apply Hres; [|done]. apply elem_of_app. right. by right.
    + rewrite settled_stale_middle in Hpool |- *.
      rewrite decide_False in Hpool by (by intros [? _]).
      by rewrite decide_False by (by intros [? _]).
    + destruct Hfired as [?|[_ Hall]]; [by left|].
      apply Forall_app in Hall as [_ [? _]%Forall_cons]. done.
  - assert (isValid = bool_decide (¬ stale accounts t)) as ->.
    { apply (Hres (Build_Promise h t (Resolved isValid))); [|done].
      apply elem_of_app. right. by left. }
    split_and!.
    + by rewrite fmap_app, fmap_cons in Hent |- *.
    + intros p isValid [Hin|[->|Hin]%elem_of_cons]%elem_of_app Hp.
      * apply Hres; [|done]. apply elem_of_app. by left.
      * done.
      * apply Hres; [|done]. apply elem_of_app. right. by right.
    + rewrite settled_stale_middle in Hpool |- *.
      rewrite decide_False in Hpool by (by intros [? _]).
      unfold evict_then, when, modify, ret, pool.
      destruct (decide (stale accounts t)) as [Hs|Hs].
      * rewrite bool_decide_eq_false_2 by tauto.
        rewrite decide_True by done. simpl in *.
        by rewrite remove_entries_middle, <-Hpool.
      * rewrite bool_decide_eq_true_2 by done.
        by rewrite decide_False by (simpl; tauto).
    + destruct Hfired as [?|[_ Hall]]; [by left|].
      apply Forall_app in Hall as [_ [? _]%Forall_cons]. done.
  - split_and!; [done..|]. by right.
Qed.

Lemma sweep_inv_rtc accounts this st :
  rtc (sweep_step accounts) (sweep_start this) st →
  sweep_inv accounts this st.
Proof.
  apply (rtc_ind_r (sweep_inv accounts this) (sweep_start this)).
  - apply sweep_inv_start.
  - intros st1 st2 _ Hstep Hinv. by eapply sweep_inv_step.
Qed.

(** The invariant I2 holds all along a sweep, whatever the order the
    promises settle in: a callback removes an entry and its sender at once. *)
Lemma sweep_sender_exclusive accounts this st :
  sender_exclusive this →
  rtc (sweep_step accounts) (sweep_start this) st →
  sender_exclusive (sweep_this st).
Proof.
  intros Hinv (Hent & _ & -> & _)%sweep_inv_rtc.
  assert (settled_stale accounts (sweep_promises st)
            `sublist_of` map_to_list (_transactions this)) as Hsub.
  { rewrite <-Hent. apply fmap_sublist, sublist_filter. }
  apply sender_exclusive_remove_entries; [| |done].
  - apply (sublist_NoDup _ (map_to_list (_transactions this)).*1).
    + apply NoDup_fst_map_to_list.
    + by apply fmap_sublist.
  - intros h t Hin. apply elem_of_map_to_list.
    by apply (elem_of_sublist _ _ _ Hin Hsub).
Qed.

(** A sweep can always be run to its end: every check resolves, every
    callback runs and the event is fired. *)
Lemma sweep_settles accounts (l1 l2 : list Promise) this evs :
  ∃ this',
    rtc (sweep_step accounts)
      {| sweep_this := this; sweep_promises := l1 ++ l2; sweep_fired := evs |}
      {| sweep_this := this'; sweep_promises := l1 ++ (settle <$> l2);
         sweep_fired := evs |}.
Proof.
  revert l1 this. induction l2 as [|[h t s] l2 IH]; intros l1 this.
  { exists this. done. }
  rewrite fmap_cons. unfold settle at 1. simpl.
  destruct s as [|isValid|].
  - destruct (IH (l1 ++ [Build_Promise h t Settled])
                (pool (evict_then h t
                   (result (_verifyTransactionBalance accounts t true this)) this)))
      as (this' & Hrtc).
    exists this'.
    eapply rtc_l; [apply step_resolve|].
    eapply rtc_l; [apply step_then|].
    by rewrite <-!app_assoc in Hrtc.
  - destruct (IH (l1 ++ [Build_Promise h t Settled])
                (pool (evict_then h t isValid this))) as (this' & Hrtc).
    exists this'.
    eapply rtc_l; [apply step_then|].
    by rewrite <-!app_assoc in Hrtc.
  - destruct (IH (l1 ++ [Build_Promise h t Settled]) this) as (this' & Hrtc).
    exists this'. by rewrite <-!app_assoc in Hrtc.
Qed.

Lemma sweep_completes accounts this st :
  sweep_inv accounts this st →
  ∃ st',
    rtc (sweep_step accounts) st st'
    ∧ sweep_fired st' = [transactions_ready].
Proof.
  intros (_ & _ & _ & [Hfired|[Hfired _]]); [|by exists st].
  destruct st as [cur l evs]; simpl in *; subst evs.
  destruct (sweep_settles accounts [] l cur []) as (this' & Hrtc).
  eexists. split.
  - eapply rtc_r; [apply Hrtc|]. apply step_fire.
    simpl. apply Forall_fmap, Forall_true. done.
  - done.
Qed.

Lemma sweep_fired_pool accounts this st :
  sweep_inv accounts this st →
  sweep_fired st ≠ [] →
  sweep_fired st = [transactions_ready]
  ∧ Forall (λ p, promise_state p = Settled) (sweep_promises st)
  ∧ sweep_this st = pool (_evictTransactions accounts this).
Proof.
  intros (Hent & _ & Hpool & Hfired) Hne.
  destruct Hfired as [?|[Hf Hall]]; [done|].
  split_and!; [done..|].
  rewrite Hpool, _evictTransactions_run. unfold pool; simpl.
  by rewrite settled_stale_all, Hent.
Qed.

(** C7, as the code has it: in a sweep, a transaction is removed only by the
    callback of its own promise, after its own check has resolved and found
    it stale, whatever the state of the other promises, and that callback
    removes the transaction from [_transactions] and its sender from
    [_senderPubKeys] together: at every point of the sweep the entries that
    are gone are those of the stale transactions whose callback has run,
    and the senders that are gone are the senders of those.  What waits for
    all the promises is the event: when [transactions-ready] is fired, once,
    every promise is settled and the pool is the one [_evictTransactions]
    returns.  A sweep can always be run to that end. *)
Theorem sweep_removals_follow_own_check accounts this st :
  rtc (sweep_step accounts) (sweep_start this) st →
  (∀ h t,
     _transactions this !! h = Some t →
     _transactions (sweep_this st) !! h = None →
     ∃ p, p ∈ sweep_promises st ∧ promise_hash p = h ∧ promise_transaction p = t
          ∧ promise_state p = Settled ∧ stale accounts t)
  ∧ (∀ h t,
       _transactions (sweep_this st) !! h = Some t →
       _transactions this !! h = Some t)
  ∧ (∀ p,
       p ∈ sweep_promises st →
       promise_state p = Settled →
       stale accounts (promise_transaction p) →
       _transactions (sweep_this st) !! promise_hash p = None
       ∧ senderPubKey (promise_transaction p) ∉ _senderPubKeys (sweep_this st))
  ∧ (∀ pk : PublicKey,
       pk ∈ _senderPubKeys (sweep_this st)
       ↔ pk ∈ _senderPubKeys this
         ∧ ¬ ∃ p, p ∈ sweep_promises st
                  ∧ promise_state p = Settled
                  ∧ stale accounts (promise_transaction p)
                  ∧ senderPubKey (promise_transaction p) = pk)
  ∧ (sweep_fired st ≠ [] →
       sweep_fired st = [transactions_ready]
       ∧ Forall (λ p, promise_state p = Settled) (sweep_promises st)
       ∧ sweep_this st = pool (_evictTransactions accounts this))
  ∧ (∃ st', rtc (sweep_step accounts) st st'
            ∧ sweep_fired st' = [transactions_ready]).
Proof.
  intros Hinv%sweep_inv_rtc.
  pose proof Hinv as (Hent & Hres & Hpool & Hfired).
  assert (∀ p, p ∈ sweep_promises st →
               promise_state p = Settled →
               stale accounts (promise_transaction p) →
               promise_entry p ∈ settled_stale accounts (sweep_promises st))
    as Hsettled.
  { intros p Hp Hs Hst. unfold settled_stale.
    apply list_elem_of_fmap_2, list_elem_of_filter. by split. }
  split_and!.
  - intros h t Ht Hnone. rewrite Hpool, lookup_remove_entries in Hnone.
    case_decide as Hin; [|congruence].
    apply list_elem_of_fmap in Hin as (e & -> & Hin).
    apply list_elem_of_fmap in Hin as (p & -> & [[Hs Hst] Hp]%list_elem_of_filter).
    assert (promise_transaction p = t) as <-.
    { assert (promise_entry p ∈ map_to_list (_transactions this)) as Hin.
      { rewrite <-Hent. by apply list_elem_of_fmap_2. }
      apply elem_of_map_to_list in Hin. simpl in Ht. congruence. }
    by exists p.
  - intros h t Ht. rewrite Hpool, lookup_remove_entries in Ht.
    by case_decide.
  - intros p Hp Hs Hst. pose proof (Hsettled p Hp Hs Hst) as Hin. split.
    + rewrite Hpool, lookup_remove_entries. rewrite decide_True; [done|].
      apply list_elem_of_fmap. by exists (promise_entry p).
    + rewrite Hpool, elem_of_senders_remove_entries. intros [_ Hn].
      apply Hn. apply list_elem_of_fmap.
      exists (promise_transaction p). split; [done|].
      apply list_elem_of_fmap. by exists (promise_entry p).
  - intros pk. rewrite Hpool, elem_of_senders_remove_entries.
    apply and_iff_compat_l, not_iff_compat. split.
    + intros (t & -> & (e & -> & Hin)%list_elem_of_fmap)%list_elem_of_fmap.
      apply list_elem_of_fmap in Hin as (p & -> & [[Hs Hst] Hp]%list_elem_of_filter).
      by exists p.
    + intros (p & Hp & Hs & Hst & <-). apply list_elem_of_fmap.
      exists (promise_transaction p). split; [done|].
      apply list_elem_of_fmap. exists (promise_entry p). split; [done|].
      by apply Hsettled.
  - by apply sweep_fired_pool.
  - by apply (sweep_completes accounts this).
Qed.

Lemma _verifyTransactionBalance_result accounts t quiet this :
  result (_verifyTransactionBalance accounts t quiet this)
  = bool_decide (¬ stale accounts t).
Proof.
  unfold _verifyTransactionBalance, stale, mbind, M_bind, bind, when, ret, log,
    result.
  destruct (Z.ltb_spec (balance_value (accounts (getSenderAddr t)))
              (add_double (value t) (fee t))) as [Hlt|Hge].
  { rewrite bool_decide_eq_false_2 by tauto. by destruct quiet. }
  case_bool_decide as Hn; simpl.
  - rewrite bool_decide_eq_true_2; [done|]. intros [?|?]; [lia|done].
  - rewrite bool_decide_eq_false_2 by tauto. by destruct quiet.
Qed.

Lemma _verifyTransaction_result accounts t this :
  result (_verifyTransaction accounts t this) = true
  ↔ verifySignature t = true
    ∧ recipientAddr t ≠ getSenderAddr t
    ∧ ¬ stale accounts t.
Proof.
  unfold _verifyTransaction.
  destruct (verifySignature t); simpl; [|split; [done|by intros [? _]]].
  case_bool_decide as Hself.
  { split; [done|]. by intros (_ & ? & _). }
  rewrite _verifyTransactionBalance_result, bool_decide_eq_true.
  split; [done|]. by intros (_ & _ & ?).
Qed.

(** ** Calls and sweeps that overlap *)

Lemma _verifyTransaction_pool accounts t this :
  pool (_verifyTransaction accounts t this) = this.
Proof.
  unfold _verifyTransaction, _verifyTransactionBalance, mbind, M_bind, bind,
    when, ret, log, pool.
  repeat (case_match; simpl; try done).
Qed.

Lemma pushTransaction_begin_run t this :
  pool (pushTransaction_begin t this) = this
  ∧ (result (pushTransaction_begin t this) = true
     ↔ _transactions this !! hash t = None).
Proof.
  unfold pushTransaction_begin, mbind, M_bind, bind, gets, ret, log, pool, result.
  case_bool_decide as Hk; simpl.
  - split; [done|]. split; [done|]. intros Hn. rewrite Hn in Hk. by destruct Hk.
  - split; [done|]. split; [|done]. intros _. by apply eq_None_not_Some.
Qed.

Lemma pushTransaction_end_pool t verified this :
  pool (pushTransaction_end t verified this)
  = if verified && bool_decide (senderPubKey t ∉ _senderPubKeys this)
    then admitted t this else this.
Proof.
  unfold pushTransaction_end, mbind, M_bind, bind, gets, modify, fire, ret, log,
    pool, admitted.
  destruct verified; simpl; [|done].
  case_bool_decide as Ha; simpl.
  - by rewrite bool_decide_eq_false_2 by tauto.
  - by rewrite bool_decide_eq_true_2.
Qed.

Lemma pushTransaction_stretches accounts t this :
  pushTransaction accounts t this
  = (go ← pushTransaction_begin t;
     if (go : bool) then
       verified ← _verifyTransaction accounts t;
       pushTransaction_end t verified
     else ret false) this.
Proof.
  unfold pushTransaction, pushTransaction_begin, pushTransaction_end,
    mbind, M_bind, bind, gets, modify, fire, ret, log.
  case_bool_decide as Hk; simpl; [done|].
  destruct (_verifyTransaction accounts t this) as [[[] this'] out]; simpl;
    [|done].
  case_bool_decide; simpl; done.
Qed.

Lemma pending_middle (l1 l2 : list (@Promise Hash PublicKey Address Signature)) p :
  pending (l1 ++ p :: l2)
  = pending l1 ++ pending [p] ++ pending l2.
Proof.
  unfold pending. rewrite filter_app, fmap_app. f_equal.
  rewrite (filter_app _ [p] l2), fmap_app. done.
Qed.

Lemma unsettled_middle (r1 r2 : list (@Run Hash PublicKey Address Signature)) run :
  unsettled (r1 ++ run :: r2)
  = unsettled r1 ++ pending (run_promises run) ++ unsettled r2.
Proof. unfold unsettled. by rewrite bind_app, bind_cons. Qed.

Lemma pending_settled (p : @Promise Hash PublicKey Address Signature) :
  pending [p]
  = if decide (promise_state p = Settled) then [] else [promise_entry p].
Proof.
  unfold pending. rewrite filter_cons, filter_nil.
  destruct (decide (promise_state p = Settled)) as [Hs|Hs].
  - by rewrite decide_False by tauto.
  - by rewrite decide_True.
Qed.

Lemma pending_promised this :
  pending (promise_of <$> promised this) = map_to_list (_transactions this).
Proof.
  rewrite promised_entries. unfold pending.
  induction (map_to_list (_transactions this)) as [|[h t] l IH]; [done|].
  rewrite fmap_cons, filter_cons, decide_True by done.
  rewrite fmap_cons. by f_equal.
Qed.

Lemma node_inv_new : node_inv (node_new : Node).
Proof.
  split_and!; simpl.
  - apply sender_exclusive_new.
  - intros h t Ht. cbn in Ht. by rewrite lookup_empty in Ht.
  - constructor.
  - intros h t Hin. by apply elem_of_nil in Hin.
Qed.

Lemma node_inv_step n n' :
  hash_fixes_sender → node_step true n n' → node_inv n → node_inv n'.
Proof.
  intros Hhash Hstep (Hex & Hkey & Hnd & Hpool).
  destruct Hstep as
    [this calls runs out t
    |this c1 t c2 runs out
    |accounts this c1 t c2 runs out
    |this c1 t verified c2 runs out
    |this calls runs out Hserial
    |accounts this calls r1 l1 h t l2 fired r2 out
    |this calls r1 l1 h t isValid l2 fired r2 out
    |this calls r1 l r2 out Hall]; unfold node_inv in *; simpl in *.
  - done.
  - by rewrite (proj1 (pushTransaction_begin_run t this)).
  - by rewrite _verifyTransaction_pool.
  - rewrite pushTransaction_end_pool.
    destruct verified; simpl; [|done].
    case_bool_decide as Hsender; [|done].
    assert (_transactions this !! hash t = None) as Hfresh.
    { destruct (_transactions this !! hash t) as [t0|] eqn:Ht0; [|done].
      destruct Hsender. rewrite <- (Hhash t0 t) by by apply Hkey.
      by apply (proj1 Hex (hash t)). }
    split_and!.
    + by apply sender_exclusive_admitted.
    + intros h t'. simpl.
      intros [[<- <-]|[_ Ht']]%lookup_insert_Some; [done | by apply Hkey].
    + done.
    + intros h t' Hin. simpl. apply Hpool in Hin as Ht'.
      rewrite lookup_insert_ne; [done|]. intros <-. congruence.
  - rewrite unsettled_middle, (Hserial eq_refl). simpl.
    unfold unsettled. simpl. rewrite !app_nil_r, pending_promised.
    split_and!; [done|done| |].
    + apply NoDup_fst_map_to_list.
    + intros h t. apply elem_of_map_to_list.
  - rewrite unsettled_middle in *. simpl in *.
    rewrite pending_middle, pending_settled in Hnd, Hpool |- *. done.
  - rewrite unsettled_middle in *. simpl in *.
    rewrite pending_middle, pending_settled in Hnd, Hpool |- *. simpl in *.
    unfold promise_entry in Hnd, Hpool. simpl in Hnd, Hpool.
    assert (∀ x : Hash * Transaction,
              unsettled r1 ++ (pending l1 ++ x :: pending l2) ++ unsettled r2
              = (unsettled r1 ++ pending l1) ++ x :: pending l2 ++ unsettled r2)
      as Hold.
    { intros x. by rewrite <- !app_assoc. }
    assert (unsettled r1 ++ (pending l1 ++ pending l2) ++ unsettled r2
            = (unsettled r1 ++ pending l1) ++ pending l2 ++ unsettled r2)
      as ->.
    { by rewrite <- !app_assoc. }
    rewrite Hold in Hnd. setoid_rewrite Hold in Hpool. clear Hold.
    revert Hnd Hpool.
    generalize (unsettled r1 ++ pending l1) (pending l2 ++ unsettled r2).
    intros A B Hnd' Hpool'.
    rewrite fmap_app, fmap_cons in Hnd'. simpl in Hnd'.
    apply NoDup_app in Hnd' as (HA & HAB & HB).
    apply NoDup_cons in HB as [HhB HB].
    assert (NoDup (A ++ B).*1) as HndAB.
    { rewrite fmap_app. apply NoDup_app. split_and!; [done| |done].
      intros x Hx Hx'. apply (HAB x Hx). by right. }
    assert (∀ h' t', (h', t') ∈ A ++ B → h' ≠ h) as Hne.
    { intros h' t' [Hin|Hin]%elem_of_app ->.
      - apply (HAB h); [|by left].
        apply list_elem_of_fmap. by exists (h, t').
      - apply HhB. apply list_elem_of_fmap. by exists (h, t'). }
    assert (∀ h' t', (h', t') ∈ A ++ B
                     → _transactions this !! h' = Some t') as HpoolAB.
    { intros h' t' Hin. apply Hpool'. apply elem_of_app.
      apply elem_of_app in Hin as [?|?]; [by left|right; by right]. }
    unfold evict_then, when, modify, ret, pool.
    destruct isValid; simpl; [done|].
    split_and!; [| |done|].
    + apply sender_exclusive_evict; [done|].
      apply Hpool'. apply elem_of_app. right. by left.
    + intros h' t'. simpl. intros [_ Ht']%lookup_delete_Some. by apply Hkey.
    + intros h' t' Hin. simpl. apply lookup_delete_Some.
      split; [|by apply HpoolAB]. intros ->. by apply (Hne _ _ Hin).
  - rewrite unsettled_middle in *. done.
Qed.

Lemma node_inv_rtc n :
  hash_fixes_sender → rtc (node_step true) node_new n → node_inv n.
Proof.
  intros Hhash Hrtc. apply rtc_nsteps in Hrtc as [k Hk].
  revert n Hk. induction k as [|k IH]; intros n Hk.
  - inversion Hk; subst. apply node_inv_new.
  - apply nsteps_inv_r in Hk as (n' & Hk & Hstep).
    eapply node_inv_step; eauto.
Qed.

Lemma insert_middle {A} (l1 l2 : list A) x y :
  <[length l1 := y]> (l1 ++ x :: l2) = l1 ++ y :: l2.
Proof.
  rewrite insert_app_r_alt by lia. by rewrite Nat.sub_diag.
Qed.

Ltac split_at H :=
  apply list_elem_of_split_length in H as (? & ? & -> & ->).

Lemma node_act_step serial a (n n' : Node) :
  node_act serial a n = Some n' → node_step serial n n'.
Proof.
  destruct n as [this calls runs out].
  destruct a as [t|i|accounts i|i| |accounts i j|i j|i]; simpl; intros Hact.
  - injection Hact as <-. constructor.
  - destruct (calls !! i) as [[t s]|] eqn:Hc; simpl in Hact; [|done].
    destruct s; try done. injection Hact as <-.
    split_at Hc. rewrite insert_middle. constructor.
  - destruct (calls !! i) as [[t s]|] eqn:Hc; simpl in Hact; [|done].
    destruct s; try done. injection Hact as <-.
    split_at Hc. rewrite insert_middle. constructor.
  - destruct (calls !! i) as [[t s]|] eqn:Hc; simpl in Hact; [|done].
    destruct s; try done. injection Hact as <-.
    split_at Hc. rewrite insert_middle. constructor.
  - destruct (serial && negb (bool_decide (unsettled runs = []))) eqn:Hs;
      [done|]. injection Hact as <-. constructor.
    intros ->. simpl in Hs. apply negb_false_iff in Hs.
    by apply bool_decide_eq_true in Hs.
  - destruct (runs !! i) as [[ps fired]|] eqn:Hr; simpl in Hact; [|done].
    destruct (ps !! j) as [[h t s]|] eqn:Hp; simpl in Hact; [|done].
    destruct s; try done. injection Hact as <-.
    split_at Hp. split_at Hr. rewrite !insert_middle. constructor.
  - destruct (runs !! i) as [[ps fired]|] eqn:Hr; simpl in Hact; [|done].
    destruct (ps !! j) as [[h t s]|] eqn:Hp; simpl in Hact; [|done].
    destruct s; try done. injection Hact as <-.
    split_at Hp. split_at Hr. rewrite !insert_middle. constructor.
  - destruct (runs !! i) as [[ps fired]|] eqn:Hr; simpl in Hact; [|done].
    destruct fired; [done|]. case_bool_decide as Hall; [|done].
    injection Hact as <-.
    split_at Hr. rewrite insert_middle. by constructor.
Qed.

Lemma node_run_rtc serial schedule (n n' : Node) :
  node_run serial schedule n = Some n' → rtc (node_step serial) n n'.
Proof.
  revert n. induction schedule as [|a schedule IH]; intros n; simpl.
  - intros [= <-]. apply rtc_refl.
  - destruct (node_act serial a n) as [n1|] eqn:Hact; simpl; [|done].
    intros Hrun. eapply rtc_l; [by eapply node_act_step | by apply IH].
Qed.


Lemma keyed_by_hash_step serial (n n' : Node) :
  node_step serial n n' →
  keyed_by_hash (node_this n) → keyed_by_hash (node_this n').
Proof.
  intros Hstep Hkey.
  destruct Hstep as
    [this calls runs out t
    |this c1 t c2 runs out
    |accounts this c1 t c2 runs out
    |this c1 t verified c2 runs out
    |this calls runs out Hserial
    |accounts this calls r1 l1 h t l2 fired r2 out
    |this calls r1 l1 h t isValid l2 fired r2 out
    |this calls r1 l r2 out Hall]; simpl in *; try done.
  - by rewrite (proj1 (pushTransaction_begin_run t this)).
  - by rewrite _verifyTransaction_pool.
  - rewrite pushTransaction_end_pool.
    destruct (verified && bool_decide (senderPubKey t ∉ _senderPubKeys this));
      [|done].
    intros h t'. simpl.
    intros [[<- <-]|[_ Ht']]%lookup_insert_Some; [done | by apply Hkey].
  - unfold evict_then, when, modify, ret, pool.
    destruct isValid; simpl; [done|].
    intros h' t'. simpl. intros [_ Ht']%lookup_delete_Some. by apply Hkey.
Qed.

Lemma keyed_by_hash_node serial (n : Node) :
  rtc (node_step serial) node_new n → keyed_by_hash (node_this n).
Proof.
  intros Hrtc. apply rtc_nsteps in Hrtc as [k Hk].
  revert n Hk. induction k as [|k IH]; intros n Hk.
  - inversion Hk; subst. intros h t Ht. cbn in Ht. by rewrite lookup_empty in Ht.
  - apply nsteps_inv_r in Hk as (n' & Hk & Hstep).
    eapply keyed_by_hash_step; eauto.
Qed.

Lemma verified_step serial (n n' : Node) :
  node_step serial n n' →
  (∀ h t, _transactions (node_this n) !! h = Some t →
          verifySignature t = true ∧ recipientAddr t ≠ getSenderAddr t)
  ∧ (∀ c, c ∈ node_calls n → call_state c = Verified true →
          verifySignature (call_transaction c) = true
          ∧ recipientAddr (call_transaction c) ≠ getSenderAddr (call_transaction c)) →
  (∀ h t, _transactions (node_this n') !! h = Some t →
          verifySignature t = true ∧ recipientAddr t ≠ getSenderAddr t)
  ∧ (∀ c, c ∈ node_calls n' → call_state c = Verified true →
          verifySignature (call_transaction c) = true
          ∧ recipientAddr (call_transaction c) ≠ getSenderAddr (call_transaction c)).
Proof.
  intros Hstep [Hpool Hcalls].
  assert (∀ (c1 c2 : list (@Call PublicKey Address Signature)) x x' c,
            c ∈ c1 ++ x' :: c2 → c = x' ∨ c ∈ c1 ++ x :: c2) as Hmid.
  { intros c1 c2 x x' c [Hc|[->|Hc]%elem_of_cons]%elem_of_app; [right|by left|right];
      apply elem_of_app; [by left|right; by right]. }
  destruct Hstep as
    [this calls runs out t
    |this c1 t c2 runs out
    |accounts this c1 t c2 runs out
    |this c1 t verified c2 runs out
    |this calls runs out Hserial
    |accounts this calls r1 l1 h t l2 fired r2 out
    |this calls r1 l1 h t isValid l2 fired r2 out
    |this calls r1 l r2 out Hall]; simpl in *; try done.
  - split; [done|].
    intros c [Hc|[->|[]%elem_of_nil]%elem_of_cons]%elem_of_app; [by apply Hcalls|done].
  - rewrite (proj1 (pushTransaction_begin_run t this)). split; [done|].
    intros c [->|Hc]%(Hmid _ _ (Build_Call t Hashing)); [|by apply Hcalls].
    simpl. by destruct (result (pushTransaction_begin t this)).
  - rewrite _verifyTransaction_pool. split; [done|].
    intros c [->|Hc]%(Hmid _ _ (Build_Call t Verifying)); [|by apply Hcalls].
    simpl. intros [= Hv]. apply _verifyTransaction_result in Hv as (? & ? & _).
    done.
  - assert (verified = true →
            verifySignature t = true ∧ recipientAddr t ≠ getSenderAddr t) as Ht.
    { intros ->. apply (Hcalls (Build_Call t (Verified true))); [|done].
      apply elem_of_app. right. by left. }
    split.
    + rewrite pushTransaction_end_pool.
      destruct verified; simpl; [|done].
      case_bool_decide; [|done]. intros h t'. simpl.
      intros [[<- <-]|[_ Ht']]%lookup_insert_Some; [by apply Ht | by eapply Hpool].
    + intros c [->|Hc]%(Hmid _ _ (Build_Call t (Verified verified)));
        [done | by apply Hcalls].
  - split; [|done].
    unfold evict_then, when, modify, ret, pool.
    destruct isValid; simpl; [done|].
    intros h' t'. simpl. intros [_ Ht']%lookup_delete_Some. by eapply Hpool.
Qed.

Lemma verified_node serial (n : Node) h t :
  rtc (node_step serial) node_new n →
  _transactions (node_this n) !! h = Some t →
  verifySignature t = true ∧ recipientAddr t ≠ getSenderAddr t.
Proof.
  intros Hrtc.
  assert ((∀ h t, _transactions (node_this n) !! h = Some t →
                  verifySignature t = true ∧ recipientAddr t ≠ getSenderAddr t)
          ∧ (∀ c, c ∈ node_calls n → call_state c = Verified true →
                  verifySignature (call_transaction c) = true
                  ∧ recipientAddr (call_transaction c)
                    ≠ getSenderAddr (call_transaction c))) as [Hpool _];
    [|by apply Hpool].
  clear h t. apply rtc_nsteps in Hrtc as [k Hk].
  revert n Hk. induction k as [|k IH]; intros n Hk.
  - inversion Hk; subst. split.
    + intros h t Ht. cbn in Ht. by rewrite lookup_empty in Ht.
    + intros c Hc. cbn in Hc. by apply elem_of_nil in Hc.
  - apply nsteps_inv_r in Hk as (n' & Hk & Hstep).
    eapply verified_step; eauto.
Qed.

Lemma sweep_step_node serial accounts calls r1 r2 out st st' :
  sweep_step accounts st st' →
  node_step serial (node_of_sweep calls r1 r2 out st)
    (node_of_sweep calls r1 r2 out st').
Proof.
  intros [this l1 h t l2 evs|this l1 h t isValid l2 evs|this l Hall];
    unfold node_of_sweep; simpl.
  - apply node_resolve.
  - apply node_then.
  - rewrite app_nil_r. by apply node_fire.
Qed.

Lemma pushTransaction_pool_stretches accounts t this :
  pool (pushTransaction accounts t this)
  = if result (pushTransaction_begin t this)
    then pool (pushTransaction_end t
                 (result (_verifyTransaction accounts t this)) this)
    else this.
Proof.
  rewrite pushTransaction_stretches. unfold mbind, M_bind, bind.
  pose proof (proj1 (pushTransaction_begin_run t this)) as Hb.
  destruct (pushTransaction_begin t this) as [[go this1] out1].
  unfold pool, result in Hb |- *. simpl in Hb |- *. subst this1.
  destruct go; [|done].
  pose proof (_verifyTransaction_pool accounts t this) as Hv.
  destruct (_verifyTransaction accounts t this) as [[v this1] out2].
  unfold pool in Hv. simpl in Hv |- *. subst this1.
  by destruct (pushTransaction_end t v this) as [[r this2] out3].
Qed.

(** A call that no other call or sweep interleaves with is a run of the
    node. *)
Lemma pushTransaction_node serial accounts t this calls runs out :
  ∃ calls' out',
    rtc (node_step serial)
      {| node_this := this; node_calls := calls; node_runs := runs;
         node_out := out |}
      {| node_this := pool (pushTransaction accounts t this);
         node_calls := calls'; node_runs := runs; node_out := out' |}.
Proof.
  pose proof (node_push serial this calls runs out t) as H1.
  pose proof (node_known serial this calls t [] runs out) as H2.
  rewrite (proj1 (pushTransaction_begin_run t this)) in H2.
  rewrite pushTransaction_pool_stretches.
  destruct (result (pushTransaction_begin t this)) eqn:Hgo.
  - pose proof (node_verify serial accounts this calls t [] runs
                  (out ++ output (pushTransaction_begin t this))) as H3.
    rewrite _verifyTransaction_pool in H3.
    pose proof (node_admit serial this calls t
                  (result (_verifyTransaction accounts t this)) [] runs
                  ((out ++ output (pushTransaction_begin t this))
                   ++ output (_verifyTransaction accounts t this))) as H4.
    eexists _, _.
    eapply rtc_l; [exact H1|]. eapply rtc_l; [exact H2|].
    eapply rtc_l; [exact H3|]. apply rtc_once, H4.
  - eexists _, _. eapply rtc_l; [exact H1|]. apply rtc_once, H2.
Qed.

Lemma pending_all_settled (ps : list (@Promise Hash PublicKey Address Signature)) :
  Forall (λ p, promise_state p = Settled) ps → pending ps = [].
Proof.
  induction 1 as [|p ps Hp _ IH]; [done|].
  unfold pending in *. rewrite filter_cons, decide_False by tauto. done.
Qed.

(** A sweep that no call or other sweep interleaves with is a run of the
    node. *)
Lemma _evictTransactions_node accounts this calls runs out :
  unsettled runs = [] →
  ∃ runs' out',
    rtc (node_step true)
      {| node_this := this; node_calls := calls; node_runs := runs;
         node_out := out |}
      {| node_this := pool (_evictTransactions accounts this);
         node_calls := calls; node_runs := runs'; node_out := out' |}
    ∧ unsettled runs' = [].
Proof.
  intros Hnone.
  destruct (sweep_completes accounts this (sweep_start this)
              (sweep_inv_start accounts this)) as (st & Hrtc & Hfired).
  pose proof (sweep_inv_rtc accounts this st Hrtc) as Hinv.
  destruct (sweep_fired_pool accounts this st Hinv) as (_ & Hall & Hpool).
  { by rewrite Hfired. }
  exists (runs ++ [Build_Run (sweep_promises st) true]),
    (out ++ [Fire transactions_ready]).
  split.
  - eapply rtc_l.
    { apply (node_head_changed true this calls runs out). by intros _. }
    apply (rtc_congruence (node_of_sweep calls runs [] out)
             (node_step true)) in Hrtc.
    2:{ intros st1 st2. apply sweep_step_node. }
    unfold node_of_sweep in Hrtc. rewrite Hfired, Hpool in Hrtc.
    simpl in Hrtc. by rewrite app_nil_r in Hrtc.
  - rewrite unsettled_middle, Hnone. simpl.
    by rewrite pending_all_settled.
Qed.

(** The pools of calls made one after the other are pools of the node, with
    no sweep left in flight. *)
Lemma reachable_node this :
  reachable this →
  ∃ n : Node,
    rtc (node_step true) node_new n
    ∧ node_this n = this
    ∧ unsettled (node_runs n) = [].
Proof.
  induction 1 as [|accounts t this _ IH|accounts this _ IH].
  - exists node_new. by split_and!.
  - destruct IH as ([this' calls runs out] & Hrtc & Hthis & Hnone).
    simpl in Hthis, Hnone. subst this'.
    destruct (pushTransaction_node true accounts t this calls runs out)
      as (calls' & out' & Hpush).
    eexists. split_and!; [by etrans|done..].
  - destruct IH as ([this' calls runs out] & Hrtc & Hthis & Hnone).
    simpl in Hthis, Hnone. subst this'.
    destruct (_evictTransactions_node accounts this calls runs out Hnone)
      as (runs' & out' & Hsweep & Hnone').
    eexists. split_and!; [by etrans|done..].
Qed.

(** * Further properties of the pool *)

(** ** The checks *)

(** X1: [quiet] only silences [_verifyTransactionBalance].  Its verdict is
    the same with and without [quiet] and does not depend on the pool, which
    it leaves untouched; with [quiet] it logs nothing; without, it logs
    nothing when it accepts and one line when it rejects, the one of the
    funds when the funds are short, whatever the nonce is, and the one of
    the nonce otherwise. *)
Theorem _verifyTransactionBalance_quiet_only_logs accounts t quiet this this' :
  result (_verifyTransactionBalance accounts t quiet this)
  = result (_verifyTransactionBalance accounts t true this')
  ∧ pool (_verifyTransactionBalance accounts t quiet this) = this
  ∧ output (_verifyTransactionBalance accounts t true this) = []
  ∧ output (_verifyTransactionBalance accounts t false this)
    = if decide (balance_value (accounts (getSenderAddr t)) < add_double (value t) (fee t))
      then [Log (Rejected_insufficient_funds t)]
      else if decide (balance_nonce (accounts (getSenderAddr t)) = nonce t)
      then []
      else [Log (Rejected_invalid_nonce t)].
Proof.
  unfold _verifyTransactionBalance, mbind, M_bind, bind, when, ret, log,
    result, pool, output.
  destruct (Z.ltb_spec (balance_value (accounts (getSenderAddr t)))
              (add_double (value t) (fee t))) as [Hlt|Hge].
  { rewrite decide_True by done. by destruct quiet. }
  rewrite decide_False by lia.
  case_bool_decide; simpl.
  - by rewrite decide_True.
  - rewrite decide_False by done. by destruct quiet.
Qed.

Lemma sender_exclusive_reachable this : reachable this → sender_exclusive this.
Proof.
  induction 1 as [|accounts t this _ IH|accounts this _ IH].
  - apply sender_exclusive_new.
  - by apply sender_exclusive_pushTransaction.
  - by apply sender_exclusive_evictTransactions.
Qed.

Lemma verified_reachable this h t :
  reachable this →
  _transactions this !! h = Some t →
  verifySignature t = true ∧ recipientAddr t ≠ getSenderAddr t.
Proof.
  intros Hreach. revert h t.
  induction Hreach as [|accounts t' this _ IH|accounts this _ IH]; intros h t.
  - simpl. by rewrite lookup_empty.
  - destruct (result (pushTransaction accounts t' this)) eqn:Hr.
    + apply pushTransaction_true in Hr as (Hnone & -> & _).
      apply first_failure_None in Hnone as (_ & Hsig & Hself & _).
      simpl. intros [[<- <-]|[_ Ht]]%lookup_insert_Some; [|by apply (IH h)].
      split; [done|]. by intros Heq.
    + rewrite pushTransaction_false by done. apply IH.
  - intros [Ht _]%lookup_evicted. by apply (IH h).
Qed.

(** X2: the checks a sweep skips need no repeating.  Every transaction of a
    pool that a sequence of operations leads to has a signature that
    verifies and a recipient other than its sender. *)
Theorem reachable_verified this h t :
  reachable this →
  _transactions this !! h = Some t →
  verifySignature t = true ∧ recipientAddr t ≠ getSenderAddr t.
Proof. apply verified_reachable. Qed.

(** ** One transaction per sender *)

(** X3: while a transaction of a sender is pooled and its sender is in
    [_senderPubKeys], as the invariant of the senders has it,
    [pushTransaction] returns [false] for every transaction of that sender,
    whatever the accounts say, and leaves the pool as it is; so does the
    last stretch of a call that was under way, whatever its verification
    found. *)
Theorem pushTransaction_sender_busy accounts this h t t' verified :
  sender_exclusive this →
  _transactions this !! h = Some t →
  senderPubKey t' = senderPubKey t →
  result (pushTransaction accounts t' this) = false
  ∧ pool (pushTransaction accounts t' this) = this
  ∧ result (pushTransaction_end t' verified this) = false
  ∧ pool (pushTransaction_end t' verified this) = this.
Proof.
  intros (Hin & _) Ht Hsender.
  assert (senderPubKey t' ∈ _senderPubKeys this) as Hbusy.
  { rewrite Hsender. by apply (Hin h). }
  assert (result (pushTransaction accounts t' this) = false) as Hr.
  { rewrite pushTransaction_result. apply bool_decide_eq_false.
    by intros (_ & _ & _ & _ & _ & Hfree)%first_failure_None. }
  split_and!; [done|by apply pushTransaction_false| |].
  - unfold pushTransaction_end, mbind, M_bind, bind, gets, log, ret, result.
    destruct verified; simpl; [|done].
    by rewrite bool_decide_eq_true_2.
  - rewrite pushTransaction_end_pool.
    rewrite (bool_decide_eq_false_2 (_ ∉ _)) by tauto.
    by rewrite andb_false_r.
Qed.

(** ** Admission and eviction together *)

(** X4: a sweep under the accounts a transaction was admitted under keeps
    it: in a pool with the invariant of the senders, after [pushTransaction]
    returned [true], [_evictTransactions] with the same accounts leaves the
    transaction under its hash and its sender in [_senderPubKeys]. *)
Theorem pushTransaction_survives_sweep accounts this t :
  sender_exclusive this →
  result (pushTransaction accounts t this) = true →
  _transactions
    (pool (_evictTransactions accounts (pool (pushTransaction accounts t this))))
    !! hash t = Some t
  ∧ senderPubKey t
    ∈ _senderPubKeys
        (pool (_evictTransactions accounts (pool (pushTransaction accounts t this)))).
Proof.
  intros (Hin & _) (Hnone & -> & _)%pushTransaction_true.
  apply first_failure_None in Hnone as (_ & _ & _ & Hbal & Hnonce & Hfree).
  assert (¬ stale accounts t) as Hfresh by (intros [?|?]; [lia|done]).
  split.
  - apply lookup_evicted. split; [apply lookup_admitted|done].
  - apply elem_of_senders_evicted. split; [simpl; set_solver|].
    intros (h & t2 & Ht2 & Hs & Heq). simpl in Ht2.
    apply lookup_insert_Some in Ht2 as [[_ <-]|[_ Ht2]]; [done|].
    apply Hfree. rewrite <-Heq. by apply (Hin h).
Qed.

(** X5: the pool keeps no memory of an eviction.  In whatever state the
    calls and sweeps so far have left the pool, overlapping or not, when a
    sweep evicts a pooled transaction and the accounts later make it valid
    again, [pushTransaction] admits it again. *)
Theorem evicted_transaction_returns serial accounts accounts' (n : Node) h t :
  rtc (node_step serial) node_new n →
  _transactions (node_this n) !! h = Some t →
  stale accounts t →
  ¬ stale accounts' t →
  _transactions (pool (_evictTransactions accounts (node_this n))) !! h = None
  ∧ result (pushTransaction accounts' t
              (pool (_evictTransactions accounts (node_this n))))
    = true.
Proof.
  intros Hreach Ht Hs Hfresh.
  pose proof (keyed_by_hash_node serial n Hreach h t Ht) as Hh.
  destruct (verified_node serial n h t Hreach Ht) as (Hsig & Hself).
  assert (_transactions (pool (_evictTransactions accounts (node_this n))) !! h
          = None) as Hgone.
  { apply eq_None_not_Some. intros [t2 Ht2].
    apply lookup_evicted in Ht2 as [Ht2 Hfresh2]. by simplify_eq. }
  split; [done|].
  rewrite pushTransaction_result. apply bool_decide_eq_true.
  apply first_failure_None. split_and!.
  - by rewrite Hh.
  - done.
  - by intros Heq.
  - apply Z.le_ngt. intros Hlt. apply Hfresh. by left.
  - apply dec_stable. intros Hne. apply Hfresh. by right.
  - intros [_ Hnot]%elem_of_senders_evicted. apply Hnot. eauto.
Qed.

(** ** What was admitted is what is listed *)

Lemma values_admitted t this :
  _transactions this !! hash t = None →
  (map_to_list (_transactions (admitted t this))).*2
  ≡ₚ t :: (map_to_list (_transactions this)).*2.
Proof.
  intros Hnone. simpl. by rewrite map_to_list_insert.
Qed.

(** X6: after a sequence of calls of [pushTransaction] the pool holds,
    besides what it held before, exactly the transactions of the calls that
    returned [true], each once, and [_senderPubKeys] has gained exactly
    their senders. *)
Theorem accepted_are_pooled (calls : list (Accounts * Transaction)) this :
  (map_to_list (_transactions (after_submissions calls this))).*2
  ≡ₚ accepted calls this ++ (map_to_list (_transactions this)).*2
  ∧ _senderPubKeys (after_submissions calls this)
    = list_to_set (senderPubKey <$> accepted calls this) ∪ _senderPubKeys this.
Proof.
  revert this. induction calls as [|[accounts t] calls IH]; intros this.
  { split; [done|]. simpl. set_solver. }
  destruct (IH (pool (pushTransaction accounts t this))) as [IHm IHs].
  cbn [after_submissions foldl accepted fst snd].
  fold (after_submissions calls (pool (pushTransaction accounts t this))).
  rewrite IHm, IHs.
  destruct (result (pushTransaction accounts t this)) eqn:Hr.
  - apply pushTransaction_true in Hr as (Hnone & -> & _).
    apply first_failure_None in Hnone as (Hnone & _). split.
    + rewrite values_admitted by done. simpl. by rewrite Permutation_middle.
    + rewrite fmap_app, list_to_set_app_L. simpl. set_solver.
  - rewrite pushTransaction_false by done. done.
Qed.

(** ** Listing *)

(** X7: [getTransactions] returns exactly as many transactions as
    [maxCount] allows and the pool has; none when [maxCount] is zero or
    negative; and what it returns for a smaller [maxCount] is the beginning
    of what it returns for a larger one. *)
Theorem getTransactions_length maxCount maxCount' this :
  length (result (getTransactions maxCount this))
  = Nat.min (Z.to_nat maxCount) (size (_transactions this))
  ∧ (maxCount ≤ 0 → result (getTransactions maxCount this) = [])
  ∧ (maxCount ≤ maxCount' →
       result (getTransactions maxCount this)
       `prefix_of` result (getTransactions maxCount' this)).
Proof.
  rewrite !getTransactions_run. unfold result; simpl. split_and!.
  - by rewrite length_take, length_fmap, length_map_to_list.
  - intros Hle. by replace (Z.to_nat maxCount) with 0%nat by lia.
  - intros Hle.
    replace (Z.to_nat maxCount)
      with (Nat.min (Z.to_nat maxCount) (Z.to_nat maxCount')) by lia.
    rewrite <-take_take. apply prefix_take.
Qed.



(** ** The dashboard *)

Lemma ui_step_rows (ui ui' : @MinerUI PublicKey Address Signature) :
  ui_step ui ui' →
  _mplTransactionCount ui' = _mplTransactionCount ui
  ∧ _mplTransactions ui' ++ (row_of <$> callbacks ui')
    ≡ₚ _mplTransactions ui ++ (row_of <$> callbacks ui).
Proof.
  intros [count rows c1 tx c2]; simpl. split; [done|].
  rewrite !fmap_app, fmap_cons, <-!app_assoc. simpl.
  apply Permutation_app_head. by rewrite <-Permutation_middle.
Qed.

(** X9: the transaction count of the dashboard is the size of the pool only
    up to 5000, the default [maxCount] of [getTransactions]: beyond, it
    shows 5000.  [_mempoolChanged] returns with no row shown; when no
    callback of an earlier call is left, the rows appended since and the
    callbacks still to run are, together, one per transaction counted, so
    that the rows are as many as the count once every callback has run, and
    fewer before. *)
Theorem _mempoolChanged_count this (ui ui' : @MinerUI PublicKey Address Signature) :
  callbacks ui = [] →
  rtc ui_step (_mempoolChanged this ui) ui' →
  _mplTransactionCount (_mempoolChanged this ui)
  = Nat.min 5000 (size (_transactions this))
  ∧ _mplTransactions (_mempoolChanged this ui) = []
  ∧ _mplTransactionCount ui' = Nat.min 5000 (size (_transactions this))
  ∧ _mplTransactions ui' ++ (row_of <$> callbacks ui')
    ≡ₚ row_of <$> result (getTransactions maxCount_default this)
  ∧ (length (_mplTransactions ui') + length (callbacks ui'))%nat
    = _mplTransactionCount ui'.
Proof.
  intros Hnone Hrtc.
  assert (length (result (getTransactions maxCount_default this))
          = Nat.min 5000 (size (_transactions this))) as Hlen.
  { rewrite getTransactions_run. unfold result; simpl.
    by rewrite length_take, length_fmap, length_map_to_list. }
  assert (_mplTransactionCount ui'
          = length (result (getTransactions maxCount_default this))
          ∧ _mplTransactions ui' ++ (row_of <$> callbacks ui')
            ≡ₚ row_of <$> result (getTransactions maxCount_default this))
    as [Hcount Hrows].
  { apply rtc_nsteps in Hrtc as [k Hk]. revert ui' Hk.
    induction k as [|k IH]; intros ui' Hk.
    - inversion Hk; subst. unfold _mempoolChanged; simpl.
      by rewrite Hnone.
    - apply nsteps_inv_r in Hk as (ui1 & Hk & Hstep).
      destruct (IH ui1 Hk) as [IHc IHr].
      apply ui_step_rows in Hstep as [-> ->]. done. }
  split_and!; [done|done|by rewrite Hcount|done|].
  apply Permutation_length in Hrows.
  rewrite length_app, !length_fmap in Hrows. by rewrite Hrows, Hcount.
Qed.

(** ** The course of a sweep *)

Lemma sweep_step_todo accounts st st' :
  sweep_step accounts st st' → sweep_todo st = S (sweep_todo st').
Proof.
  intros [cur l1 h t l2 evs|cur l1 h t isValid l2 evs|cur l Hall];
    unfold sweep_todo; simpl; rewrite ?sum_list_with_app; simpl;
    unfold promise_todo; simpl; lia.
Qed.

Lemma sweep_start_todo this :
  sweep_todo (sweep_start this) = (2 * size (_transactions this) + 1)%nat.
Proof.
  unfold sweep_todo, sweep_start; simpl. rewrite promised_entries.
  rewrite <-length_map_to_list.
  induction (map_to_list (_transactions this)) as [|e l IH]; [done|].
  rewrite fmap_cons. cbn [sum_list_with length].
  unfold promise_todo at 1. simpl promise_state. cbv iota. lia.
Qed.

Lemma nsteps_sweep_todo accounts k st st' :
  nsteps (sweep_step accounts) k st st' →
  (k + sweep_todo st')%nat = sweep_todo st.
Proof.
  induction 1 as [|k st1 st2 st3 Hstep _ IH]; [done|].
  apply sweep_step_todo in Hstep. lia.
Qed.

Lemma settled_todo (l : list (@Promise Hash PublicKey Address Signature)) :
  Forall (λ p, promise_state p = Settled) l → sum_list_with promise_todo l = 0%nat.
Proof.
  induction 1 as [|p l Hp _ IH]; [done|]. simpl. unfold promise_todo at 1.
  rewrite Hp. lia.
Qed.

(** X10: a sweep of a pool of [n] transactions takes [2 * n + 1] steps, in
    whatever order the promises settle: [n] checks resolve, [n] callbacks
    run, and [transactions-ready] is fired by the last step.  After it the
    sweep takes no further step, so it does not touch the pool again. *)
Theorem sweep_length accounts this k st :
  nsteps (sweep_step accounts) k (sweep_start this) st →
  (k ≤ 2 * size (_transactions this) + 1)%nat
  ∧ (sweep_fired st ≠ [] ↔ k = (2 * size (_transactions this) + 1)%nat)
  ∧ (sweep_fired st ≠ [] → ∀ st', ¬ sweep_step accounts st st').
Proof.
  intros Hsteps.
  pose proof (nsteps_sweep_todo _ _ _ _ Hsteps) as Hk.
  rewrite sweep_start_todo in Hk.
  apply rtc_nsteps_2, sweep_inv_rtc in Hsteps as (_ & _ & _ & Hfired).
  assert (sweep_fired st ≠ [] ↔ sweep_todo st = 0%nat) as Hdone.
  { unfold sweep_todo. destruct Hfired as [->|[-> Hall]].
    - split; [done|lia].
    - rewrite settled_todo by done. done. }
  split_and!.
  - lia.
  - rewrite Hdone. lia.
  - intros Hne%Hdone st' Hstep%sweep_step_todo. lia.
Qed.

(** X11: the invariant of the senders holds whenever the sweeps come in
    turn, at every point and whatever calls of [pushTransaction] are under
    way: when each head change comes after the sweep before has settled its
    promises, and transactions with one hash have one sender, the sender of
    every pooled transaction is in [_senderPubKeys], no two entries have the
    same sender and there are as many entries as senders. *)
Theorem sweeps_in_turn_sender_exclusive (n : Node) :
  hash_fixes_sender →
  rtc (node_step true) node_new n →
  (∀ h t, _transactions (node_this n) !! h = Some t →
          senderPubKey t ∈ _senderPubKeys (node_this n))
  ∧ (∀ h1 t1 h2 t2,
       h1 ≠ h2 →
       _transactions (node_this n) !! h1 = Some t1 →
       _transactions (node_this n) !! h2 = Some t2 →
       senderPubKey t1 ≠ senderPubKey t2)
  ∧ size (_transactions (node_this n)) = size (_senderPubKeys (node_this n)).
Proof.
  intros Hhash Hrtc.
  destruct (node_inv_rtc n Hhash Hrtc) as ((Hin & Hinj & Hsize) & _).
  split_and!; [done| |done].
  intros h1 t1 h2 t2 Hne Ht1 Ht2 Heq. destruct Hne. eauto.
Qed.

(** ** How the operations compose *)

Lemma Mempool_eq this1 this2 :
  _transactions this1 = _transactions this2 →
  _senderPubKeys this1 = _senderPubKeys this2 →
  this1 = this2.
Proof. destruct this1, this2; simpl. by intros -> ->. Qed.

(** X14: two sweeps commute.  The pool after a sweep under one state of the
    accounts and a sweep under another is the same in either order: what
    stays is what is stale under neither. *)
Theorem _evictTransactions_commute accounts accounts' this :
  pool (_evictTransactions accounts' (pool (_evictTransactions accounts this)))
  = pool (_evictTransactions accounts (pool (_evictTransactions accounts' this))).
Proof.
  apply Mempool_eq.
  - apply map_eq. intros h. apply option_eq. intros t.
    rewrite !lookup_evicted. tauto.
  - apply set_eq. intros pk. rewrite !elem_of_senders_evicted.
    split; intros ((Hin & Hn1) & Hn2); (split; [split; [done|]|]).
    + intros (h & t & Ht & Hs & Heq).
      destruct (decide (stale accounts t)) as [Hs'|Hs'].
      * apply Hn1. eauto 6.
      * apply Hn2. exists h, t. by rewrite lookup_evicted.
    + intros (h & t & [Ht Hs']%lookup_evicted & Hs & Heq). apply Hn1. eauto 6.
    + intros (h & t & Ht & Hs & Heq).
      destruct (decide (stale accounts' t)) as [Hs'|Hs'].
      * apply Hn1. eauto 6.
      * apply Hn2. exists h, t. by rewrite lookup_evicted.
    + intros (h & t & [Ht Hs']%lookup_evicted & Hs & Heq). apply Hn1. eauto 6.
Qed.

Lemma first_failure_admitted accounts t t' this :
  senderPubKey t' ≠ senderPubKey t →
  hash t' ≠ hash t →
  first_failure accounts t (admitted t' this) = first_failure accounts t this.
Proof.
  intros Hsender Hhash. unfold first_failure, admitted; simpl.
  rewrite lookup_insert_ne by done.
  assert (senderPubKey t ∈ ({[senderPubKey t']} : gset PublicKey) ∪ _senderPubKeys this
          ↔ senderPubKey t ∈ _senderPubKeys this) as Hiff by set_solver.
  repeat case_decide; try done; tauto.
Qed.

Lemma admitted_commute t t' this :
  hash t' ≠ hash t →
  admitted t (admitted t' this) = admitted t' (admitted t this).
Proof.
  intros Hhash. apply Mempool_eq; simpl.
  - by apply insert_insert_ne.
  - set_solver.
Qed.

Lemma pushTransaction_admitted accounts t t' this :
  senderPubKey t' ≠ senderPubKey t →
  hash t' ≠ hash t →
  result (pushTransaction accounts t (admitted t' this))
  = result (pushTransaction accounts t this).
Proof.
  intros Hsender Hhash.
  by rewrite !pushTransaction_result, first_failure_admitted.
Qed.

Lemma pushTransaction_swap accounts1 accounts2 t1 t2 this :
  senderPubKey t1 ≠ senderPubKey t2 →
  hash t1 ≠ hash t2 →
  result (pushTransaction accounts2 t2 (pool (pushTransaction accounts1 t1 this)))
  = result (pushTransaction accounts2 t2 this)
  ∧ pool (pushTransaction accounts2 t2 (pool (pushTransaction accounts1 t1 this)))
    = pool (pushTransaction accounts1 t1 (pool (pushTransaction accounts2 t2 this))).
Proof.
  intros Hsender Hhash.
  destruct (result (pushTransaction accounts1 t1 this)) eqn:Hr1;
    destruct (result (pushTransaction accounts2 t2 this)) eqn:Hr2.
  - pose proof Hr1 as (_ & Hp1 & _)%pushTransaction_true.
    pose proof Hr2 as (_ & Hp2 & _)%pushTransaction_true.
    rewrite Hp1, Hp2.
    assert (result (pushTransaction accounts2 t2 (admitted t1 this)) = true) as Hr2'
      by (by rewrite pushTransaction_admitted).
    assert (result (pushTransaction accounts1 t1 (admitted t2 this)) = true) as Hr1'
      by (by rewrite pushTransaction_admitted).
    split; [done|].
    apply pushTransaction_true in Hr1' as (_ & -> & _).
    apply pushTransaction_true in Hr2' as (_ & -> & _).
    by apply admitted_commute.
  - pose proof Hr1 as (_ & Hp1 & _)%pushTransaction_true.
    rewrite Hp1, (pushTransaction_false _ _ _ Hr2), Hp1.
    assert (result (pushTransaction accounts2 t2 (admitted t1 this)) = false) as Hr2'
      by (by rewrite pushTransaction_admitted).
    split; [done|]. by apply pushTransaction_false.
  - pose proof Hr2 as (_ & Hp2 & _)%pushTransaction_true.
    rewrite (pushTransaction_false _ _ _ Hr1), Hp2.
    split; [done|].
    assert (result (pushTransaction accounts1 t1 (admitted t2 this)) = false) as Hr1'
      by (by rewrite pushTransaction_admitted).
    by rewrite (pushTransaction_false _ _ _ Hr1').
  - rewrite (pushTransaction_false _ _ _ Hr1), (pushTransaction_false _ _ _ Hr2).
    split; [done|].
    by rewrite (pushTransaction_false _ _ _ Hr1).
Qed.

(** X15: transactions of different senders do not get in each other's way.
    For two transactions with different senders and different hashes, what
    [pushTransaction] returns for one is the same before and after the
    other was pushed, and after both calls the pool has the same entries
    and the same senders in either order.  (The order in which
    [getTransactions] lists the entries is not part of the statement.) *)
Theorem pushTransaction_independent accounts1 accounts2 t1 t2 this :
  senderPubKey t1 ≠ senderPubKey t2 →
  hash t1 ≠ hash t2 →
  result (pushTransaction accounts2 t2 (pool (pushTransaction accounts1 t1 this)))
  = result (pushTransaction accounts2 t2 this)
  ∧ (∀ h,
       _transactions
         (pool (pushTransaction accounts2 t2 (pool (pushTransaction accounts1 t1 this))))
         !! h
       = _transactions
           (pool (pushTransaction accounts1 t1 (pool (pushTransaction accounts2 t2 this))))
           !! h)
  ∧ (∀ pk : PublicKey,
       pk ∈ _senderPubKeys
              (pool (pushTransaction accounts2 t2 (pool (pushTransaction accounts1 t1 this))))
       ↔ pk ∈ _senderPubKeys
                (pool (pushTransaction accounts1 t1 (pool (pushTransaction accounts2 t2 this))))).
Proof.
  intros Hsender Hhash.
  destruct (pushTransaction_swap accounts1 accounts2 t1 t2 this Hsender Hhash)
    as [Hr Hp].
  split_and!; [done| |]; intros ?; by rewrite Hp.
Qed.


End properties.

(** * The byte counters of the dashboard *)

Lemma Qc_of_Z_pow_succ (i : nat) :
  Qc_of_Z (1024 ^ Z.of_nat (S i)) = (Qc_of_Z 1024 * Qc_of_Z (1024 ^ Z.of_nat i))%Qc.
Proof. by rewrite Nat2Z.inj_succ, Z.pow_succ_r, Z2Qc_inj_mul by lia. Qed.

Lemma Qc_of_Z_pow_pos (i : nat) : (0 < Qc_of_Z (1024 ^ Z.of_nat i))%Qc.
Proof. rewrite <-Z2Qc_inj_0, <-Z2Qc_inj_lt. apply Z.pow_pos_nonneg; lia. Qed.

Lemma pow_1024_succ (i : nat) : 1024 ^ Z.of_nat (S i) = 1024 * 1024 ^ Z.of_nat i.
Proof. rewrite Nat2Z.inj_succ, Z.pow_succ_r by lia. done. Qed.

Lemma pow_1024_pos (i : nat) : 0 < 1024 ^ Z.of_nat i.
Proof. apply Z.pow_pos_nonneg; lia. Qed.

(** [x] stands for [b / 1024 ^ i]. *)
Lemma scaled_lt (x : Qc) b (i : nat) :
  (x * Qc_of_Z (1024 ^ Z.of_nat i))%Qc = Qc_of_Z b →
  (Qc_of_Z 1024 < x)%Qc ↔ 1024 ^ Z.of_nat (S i) < b.
Proof.
  intros Hx.
  rewrite (Qcmult_lt_mono_pos_r _ _ _ (Qc_of_Z_pow_pos i)), Hx.
  by rewrite <-Qc_of_Z_pow_succ, <-Z2Qc_inj_lt.
Qed.

Lemma scaled_gt_1 (x : Qc) b (i : nat) :
  (x * Qc_of_Z (1024 ^ Z.of_nat i))%Qc = Qc_of_Z b →
  (1 < x)%Qc ↔ 1024 ^ Z.of_nat i < b.
Proof.
  intros Hx.
  rewrite (Qcmult_lt_mono_pos_r _ _ _ (Qc_of_Z_pow_pos i)), Hx.
  by rewrite Qcmult_1_l, <-Z2Qc_inj_lt.
Qed.

Lemma _humanBytes_loop_spec fuel (x : Qc) b (i : nat) :
  (x * Qc_of_Z (1024 ^ Z.of_nat i))%Qc = Qc_of_Z b →
  (0 < fuel)%nat →
  b ≤ 1024 ^ Z.of_nat (i + fuel) →
  ∃ q j,
    _humanBytes_loop fuel x i = Some (q, j)
    ∧ (q * Qc_of_Z (1024 ^ Z.of_nat j))%Qc = Qc_of_Z b
    ∧ (i ≤ j)%nat
    ∧ b ≤ 1024 ^ Z.of_nat (S j)
    ∧ ((i < j)%nat → 1024 ^ Z.of_nat j < b).
Proof.
  revert x i. induction fuel as [|fuel IH]; intros x i Hx Hfuel Hb; [lia|].
  simpl. destruct (decide (Qc_of_Z 1024 < x)%Qc) as [Hlt|Hge].
  - pose proof (proj1 (scaled_lt x b i Hx) Hlt) as Hlt'.
    destruct (IH (x / Qc_of_Z 1024)%Qc (S i)) as (q & j & Hloop & Hq & Hij & Hle & Hgt).
    + rewrite Qc_of_Z_pow_succ. rewrite <-Hx. field. done.
    + destruct fuel; [|lia]. replace (i + 1)%nat with (S i) in Hb by lia. lia.
    + by replace (S i + fuel)%nat with (i + S fuel)%nat by lia.
    + exists q, j. split_and!; [done|done|lia|done|].
      intros _. destruct (decide (j = S i)) as [->|]; [done|]. apply Hgt. lia.
  - exists x, i. split_and!; [done|done|lia| |lia].
    apply Z.le_ngt. intros Hlt%(scaled_lt x b i Hx). done.
Qed.

Lemma _humanBytes_fuel (bytes : N) :
  Z.of_N bytes ≤ 1024 ^ Z.of_nat (0 + S (N.to_nat (N.log2 bytes))).
Proof.
  destruct (decide (bytes = 0%N)) as [->|Hne]; [done|].
  pose proof (N.log2_spec bytes ltac:(lia)) as [_ Hlt].
  apply N2Z.inj_lt in Hlt. rewrite N2Z.inj_pow in Hlt.
  replace (Z.of_nat (0 + S (N.to_nat (N.log2 bytes))))
    with (Z.of_N (N.succ (N.log2 bytes))) by lia.
  etrans; [apply Z.lt_le_incl, Hlt|].
  apply Z.pow_le_mono_l. lia.
Qed.

Lemma _humanBytes_scaled_spec (bytes : N) :
  ∃ q i,
    _humanBytes_scaled bytes = Some (q, i)
    ∧ (q * Qc_of_Z (1024 ^ Z.of_nat i))%Qc = Qc_of_Z (Z.of_N bytes)
    ∧ Z.of_N bytes ≤ 1024 ^ Z.of_nat (S i)
    ∧ ((0 < i)%nat → 1024 ^ Z.of_nat i < Z.of_N bytes).
Proof.
  destruct (_humanBytes_loop_spec (S (N.to_nat (N.log2 bytes)))
              (Qc_of_Z (Z.of_N bytes)) (Z.of_N bytes) 0)
    as (q & i & Hloop & Hq & _ & Hle & Hgt).
  - change (1024 ^ Z.of_nat 0) with 1. by rewrite Z2Qc_inj_1, Qcmult_1_r.
  - lia.
  - apply _humanBytes_fuel.
  - by exists q, i.
Qed.

(** X12: for a byte counter up to [2 ^ 53], [_humanBytes] returns a value
    and a unit of its table, never [undefined]: the unit is one of the first
    six, the value times [1024] to the index of the unit is the counter,
    the value is at most 1024, and it is above 1 once a unit larger than
    [B] is used. *)
Theorem _humanBytes_scale (bytes : N) :
  (bytes ≤ 2 ^ 53)%N →
  ∃ q i u,
    _humanBytes_scaled bytes = Some (q, i)
    ∧ (q * Qc_of_Z (1024 ^ Z.of_nat i))%Qc = Qc_of_Z (Z.of_N bytes)
    ∧ (q ≤ Qc_of_Z 1024)%Qc
    ∧ ((0 < i)%nat → (1 < q)%Qc)
    ∧ (i ≤ 5)%nat
    ∧ units !! i = Some u
    ∧ _humanBytes bytes
      = Some ((if isInteger q then pretty (Qfloor q) else toFixed2 q)
              +:+ " " +:+ u).
Proof.
  intros Hb.
  destruct (_humanBytes_scaled_spec bytes) as (q & i & Hs & Hq & Hle & Hgt).
  assert (i ≤ 5)%nat as Hi.
  { apply Nat.lt_succ_r, Nat.lt_nge. intros Hi.
    assert (1024 ^ Z.of_nat 6 ≤ 1024 ^ Z.of_nat i)
      by (apply Z.pow_le_mono_r; lia).
    specialize (Hgt ltac:(lia)).
    assert (Z.of_N bytes ≤ Z.of_N (2 ^ 53)) as Hb' by lia.
    change (Z.of_N (2 ^ 53)) with 9007199254740992 in Hb'.
    change (1024 ^ Z.of_nat 6) with 1152921504606846976 in *. lia. }
  destruct (lookup_lt_is_Some_2 units i) as [u Hu].
  { change (length units) with 9%nat. lia. }
  exists q, i, u. split_and!; [done|done| | |done|done|].
  - apply Qcle_ngt. intros Hlt%(scaled_lt q (Z.of_N bytes) i Hq). lia.
  - intros Hpos. apply (scaled_gt_1 q (Z.of_N bytes) i Hq). auto.
  - unfold _humanBytes. rewrite Hs. simpl. by rewrite Hu.
Qed.

(** X13: a byte counter up to 1024, 1024 included, is shown as it is, in
    bytes and without decimals: the loop scales only what is above 1024. *)
Theorem _humanBytes_small (bytes : N) :
  (bytes ≤ 1024)%N →
  _humanBytes bytes = Some (pretty bytes +:+ " B").
Proof.
  intros Hle. unfold _humanBytes, _humanBytes_scaled. simpl.
  rewrite decide_False; last first.
  { rewrite <-Qcle_ngt, <-Z2Qc_inj_le. lia. }
  simpl. rewrite Z.div_1_r. by destruct bytes.
Qed.

(** * The properties at the concrete instance *)

Section examples.

Import Examples.

(** The scenario of the specification: with T1 and T2 pooled, a head change
    after which account 1 expects nonce 6 removes T1, keeps T2 and fires the
    event once. *)
Example evict_t1_keep_t2 :
  map_to_list (_transactions pool12) = [(hash t2, t2); (hash t1, t1)]
  ∧ map_to_list (_transactions (pool (_evictTransactions after_block pool12)))
    = [(hash t2, t2)]
  ∧ elements (_senderPubKeys (pool (_evictTransactions after_block pool12)))
    = [2%nat]
  ∧ output (_evictTransactions after_block pool12) = [Fire transactions_ready].
Proof. vm_compute. done. Qed.

Example reachable_pool12 : reachable pool12.
Proof. apply reachable_push, reachable_push, reachable_new. Qed.

Example reachable_pool1 : reachable pool1.
Proof. apply reachable_push, reachable_new. Qed.

Lemma pushTransaction_rejected_unchanged_witness :
  result (pushTransaction (flat 0 0) t2 pool1) = false
  ∧ _transactions (pool (pushTransaction (flat 0 0) t2 pool1)) = _transactions pool1
  ∧ _senderPubKeys (pool (pushTransaction (flat 0 0) t2 pool1)) = _senderPubKeys pool1.
Proof.
  split; [vm_compute; reflexivity|].
  apply (pushTransaction_rejected_unchanged (flat 0 0) t2 pool1).
  vm_compute; reflexivity.
Defined.

Lemma getTransactions_bound_witness :
  0 ≤ 1
  ∧ Z.of_nat (length (result (getTransactions 1 pool12))) ≤ 1
  ∧ (∀ t, t ∈ result (getTransactions 1 pool12) →
       ∃ h, _transactions pool12 !! h = Some t)
  ∧ (Z.of_nat (size (_transactions pool12)) ≤ 1 →
       result (getTransactions 1 pool12) = (map_to_list (_transactions pool12)).*2)
  ∧ pool (getTransactions 1 pool12) = pool12.
Proof.
  split; [lia|]. apply (getTransactions_bound 1 pool12). lia.
Defined.

Lemma pushTransaction_only_first_witness :
  (0 < 2)%nat
  ∧ submissions ((λ accounts, (accounts, t1)) <$> [at_first; after_block; at_first])
      Mempool_new !! 0%nat
    = Some (pushTransaction at_first t1 Mempool_new)
  ∧ result (pushTransaction at_first t1 Mempool_new) = true
  ∧ submissions ((λ accounts, (accounts, t1)) <$> [at_first; after_block; at_first])
      Mempool_new !! 2%nat
    = Some (pushTransaction at_first t1 pool1)
  ∧ is_Some (_transactions (pool (pushTransaction at_first t1 Mempool_new)) !! hash t1)
  ∧ result (pushTransaction at_first t1 pool1) = false
  ∧ pool (pushTransaction at_first t1 pool1)
    = pool (pushTransaction at_first t1 Mempool_new)
  ∧ output (pushTransaction at_first t1 pool1)
    = [Log (Ignoring_known_transaction (hash t1))].
Proof.
  split; [lia|]. split; [vm_compute; reflexivity|].
  split; [vm_compute; reflexivity|]. split; [vm_compute; reflexivity|].
  apply (proj1 (proj2 (pushTransaction_only_first t1 Mempool_new))
           [at_first; after_block; at_first] 0%nat 2%nat).
  - lia.
  - vm_compute; reflexivity.
  - vm_compute; reflexivity.
  - vm_compute; reflexivity.
Defined.

Lemma getTransaction_pushTransaction_witness :
  result (pushTransaction at_first t1 Mempool_new) = true
  ∧ Forall (λ o, result o = false)
      (submissions [(at_first, t1); (flat 0 0, t2)]
         (pool (pushTransaction at_first t1 Mempool_new)))
  ∧ result (getTransaction (hash t1) (pool (pushTransaction (flat 0 0) t2 pool1)))
    = Some t1
  ∧ pool (getTransaction (hash t1) (pool (pushTransaction (flat 0 0) t2 pool1)))
    = pool (pushTransaction (flat 0 0) t2 pool1).
Proof.
  assert (Forall (λ o, result o = false)
            (submissions [(at_first, t1); (flat 0 0, t2)]
               (pool (pushTransaction at_first t1 Mempool_new)))) as Hall.
  { repeat constructor; vm_compute; reflexivity. }
  split; [vm_compute; reflexivity|]. split; [exact Hall|].
  apply (getTransaction_pushTransaction at_first t1 Mempool_new
           [(at_first, t1); (flat 0 0, t2)]
           (pushTransaction (flat 0 0) t2 pool1)).
  - vm_compute; reflexivity.
  - exact Hall.
  - apply list_elem_of_further, list_elem_of_further.
    assert (pool (pushTransaction at_first t1
                    (pool (pushTransaction at_first t1 Mempool_new))) = pool1)
      as Heq by (vm_compute; reflexivity).
    simpl. rewrite Heq. apply list_elem_of_here.
Defined.

(** In the sweep of [pool12] under empty accounts the check of T2 can
    resolve first and its callback run at once. *)
Lemma sweep_start_sweep1 : sweep_step (flat 0 0) (sweep_start pool12) sweep1.
Proof.
  assert (sweep_start pool12
          = {| sweep_this := pool12;
               sweep_promises := [] ++ Build_Promise (hash t2) t2 Pending
                                    :: [promise1 Pending];
               sweep_fired := [] |}) as -> by (vm_compute; reflexivity).
  assert (sweep1
          = {| sweep_this := pool12;
               sweep_promises :=
                 [] ++ Build_Promise (hash t2) t2
                         (Resolved (result (_verifyTransactionBalance
                                              (flat 0 0) t2 true pool12)))
                    :: [promise1 Pending];
               sweep_fired := [] |}) as -> by (vm_compute; reflexivity).
  apply step_resolve.
Qed.

Lemma sweep1_sweep2 : sweep_step (flat 0 0) sweep1 sweep2.
Proof.
  apply (step_then (flat 0 0) pool12 [] (hash t2) t2 false [promise1 Pending] []).
Qed.

Lemma sweep2_removed :
  _transactions (sweep_this sweep2) !! hash t2 = None
  ∧ _transactions (sweep_this sweep1) !! hash t2 = Some t2.
Proof. split; vm_compute; reflexivity. Qed.

(** The reading of C7 the specification gives fails: in that sweep T2 is
    removed while the check of T1 is still pending. *)
Lemma removals_do_not_wait_for_all_checks :
  ¬ removals_wait_for_all_checks (flat 0 0) pool12.
Proof.
  intros Hwait.
  apply (Hwait sweep1 sweep2) with (p := promise1 Pending).
  - apply rtc_once, sweep_start_sweep1.
  - apply sweep1_sweep2.
  - intros Heq. destruct sweep2_removed as [Hnone Hsome].
    rewrite Heq in Hnone. congruence.
  - apply list_elem_of_further, list_elem_of_here.
  - reflexivity.
Qed.

Lemma sweep_removals_follow_own_check_witness :
  rtc (sweep_step (flat 0 0)) (sweep_start pool12) sweep2
  ∧ (∃ p, p ∈ sweep_promises sweep2 ∧ promise_hash p = hash t2
          ∧ promise_transaction p = t2
          ∧ promise_state p = Settled ∧ stale (flat 0 0) t2)
  ∧ _transactions (sweep_this sweep2) !! hash t2 = None
  ∧ senderPubKey t2 ∉ _senderPubKeys (sweep_this sweep2).
Proof.
  assert (rtc (sweep_step (flat 0 0)) (sweep_start pool12) sweep2) as Hrtc.
  { eapply rtc_l; [apply sweep_start_sweep1|]. apply rtc_once, sweep1_sweep2. }
  destruct (sweep_removals_follow_own_check (flat 0 0) pool12 sweep2 Hrtc)
    as (Hgone & _ & Hboth & _).
  split; [exact Hrtc|]. split.
  - apply Hgone; vm_compute; reflexivity.
  - apply (Hboth (promise2 Settled)).
    + apply list_elem_of_here.
    + reflexivity.
    + left. vm_compute; reflexivity.
Defined.

(** ** Sums past [2 ^ 53] *)



(** ** Sweeps that overlap *)

Example hash_fixes_sender_methods : hash_fixes_sender.
Proof. intros t t' Heq. by injection Heq. Qed.

(** C2: the schedule [overlap] is a run of the pool, two sweeps in flight
    at once and a call of [pushTransaction] between their callbacks; it ends
    with T4 pooled and its sender not in [_senderPubKeys], one entry and no
    sender.  (Transactions with one hash have one sender here: it is the
    overlap of the sweeps that breaks the invariant.) *)
Theorem overlapping_sweeps_break_sender_exclusive :
  node_run false overlap node_new = Some broken
  ∧ rtc (node_step false) node_new broken
  ∧ _transactions (node_this broken) !! hash t4 = Some t4
  ∧ (senderPubKey t4 ∉ _senderPubKeys (node_this broken))
  ∧ size (_transactions (node_this broken)) = 1%nat
  ∧ size (_senderPubKeys (node_this broken)) = 0%nat
  ∧ ¬ sender_exclusive (node_this broken)
  ∧ hash_fixes_sender.
Proof.
  assert (node_run false overlap node_new = Some broken) as Hrun
    by (vm_compute; reflexivity).
  split_and!.
  - exact Hrun.
  - by apply (node_run_rtc false overlap).
  - vm_compute; reflexivity.
  - apply (bool_decide_unpack _). vm_compute. exact I.
  - vm_compute; reflexivity.
  - vm_compute; reflexivity.
  - intros (_ & _ & Hsize). vm_compute in Hsize. discriminate.
  - apply hash_fixes_sender_methods.
Qed.

Example served_in_turn : rtc (node_step true) node_new served.
Proof. apply (node_run_rtc true in_turn). vm_compute; reflexivity. Qed.

Example sender_exclusive_pool12 : sender_exclusive pool12.
Proof. apply sender_exclusive_reachable, reachable_pool12. Qed.

Example sender_exclusive_pool1 : sender_exclusive pool1.
Proof. apply sender_exclusive_reachable, reachable_pool1. Qed.

(** ** The further properties at the concrete instance *)

Lemma reachable_verified_witness :
  reachable pool12
  ∧ _transactions pool12 !! hash t1 = Some t1
  ∧ verifySignature t1 = true ∧ recipientAddr t1 ≠ getSenderAddr t1.
Proof.
  split; [apply reachable_pool12|]. split; [vm_compute; reflexivity|].
  apply (reachable_verified pool12 (hash t1) t1).
  - apply reachable_pool12.
  - vm_compute; reflexivity.
Defined.

Lemma pushTransaction_sender_busy_witness :
  sender_exclusive pool12
  ∧ _transactions pool12 !! hash t1 = Some t1
  ∧ senderPubKey t3 = senderPubKey t1
  ∧ result (pushTransaction at_first t3 pool12) = false
  ∧ pool (pushTransaction at_first t3 pool12) = pool12
  ∧ result (pushTransaction_end t3 true pool12) = false
  ∧ pool (pushTransaction_end t3 true pool12) = pool12.
Proof.
  split; [apply sender_exclusive_pool12|]. split; [vm_compute; reflexivity|].
  split; [reflexivity|].
  apply (pushTransaction_sender_busy at_first pool12 (hash t1) t1 t3 true).
  - apply sender_exclusive_pool12.
  - vm_compute; reflexivity.
  - reflexivity.
Defined.

Lemma pushTransaction_survives_sweep_witness :
  sender_exclusive pool1
  ∧ result (pushTransaction at_first t2 pool1) = true
  ∧ _transactions
      (pool (_evictTransactions at_first (pool (pushTransaction at_first t2 pool1))))
      !! hash t2 = Some t2
  ∧ senderPubKey t2
    ∈ _senderPubKeys
        (pool (_evictTransactions at_first (pool (pushTransaction at_first t2 pool1)))).
Proof.
  split; [apply sender_exclusive_pool1|]. split; [vm_compute; reflexivity|].
  apply (pushTransaction_survives_sweep at_first pool1 t2).
  - apply sender_exclusive_pool1.
  - vm_compute; reflexivity.
Defined.

Example t1_stale_after_block : stale after_block t1 ∧ ¬ stale at_first t1.
Proof.
  split.
  - right. vm_compute. discriminate.
  - intros [Hlt|Hne]; [vm_compute in Hlt; discriminate|].
    vm_compute in Hne. by apply Hne.
Qed.

Lemma evicted_transaction_returns_witness :
  rtc (node_step true) node_new served
  ∧ _transactions (node_this served) !! hash t2 = Some t2
  ∧ stale (flat 0 0) t2
  ∧ ¬ stale at_first t2
  ∧ _transactions (pool (_evictTransactions (flat 0 0) (node_this served)))
      !! hash t2 = None
  ∧ result (pushTransaction at_first t2
              (pool (_evictTransactions (flat 0 0) (node_this served))))
    = true.
Proof.
  assert (stale (flat 0 0) t2) as Hs by (left; vm_compute; reflexivity).
  assert (¬ stale at_first t2) as Hfresh.
  { intros [Hlt|Hne]; [vm_compute in Hlt; discriminate|].
    vm_compute in Hne. by apply Hne. }
  split; [apply served_in_turn|]. split; [vm_compute; reflexivity|].
  split; [exact Hs|]. split; [exact Hfresh|].
  apply (evicted_transaction_returns true (flat 0 0) at_first served (hash t2) t2).
  - apply served_in_turn.
  - vm_compute; reflexivity.
  - exact Hs.
  - exact Hfresh.
Defined.


Example sweep_two_steps :
  nsteps (sweep_step (flat 0 0)) 2 (sweep_start pool12) sweep2.
Proof.
  eapply nsteps_l; [apply sweep_start_sweep1|].
  eapply nsteps_l; [apply sweep1_sweep2|]. apply nsteps_O.
Qed.

Lemma sweep_length_witness :
  nsteps (sweep_step (flat 0 0)) 2 (sweep_start pool12) sweep2
  ∧ (2 ≤ 2 * size (_transactions pool12) + 1)%nat
  ∧ (sweep_fired sweep2 ≠ [] ↔ 2%nat = (2 * size (_transactions pool12) + 1)%nat)
  ∧ (sweep_fired sweep2 ≠ [] → ∀ st', ¬ sweep_step (flat 0 0) sweep2 st').
Proof.
  split; [apply sweep_two_steps|].
  apply (sweep_length (flat 0 0) pool12 2 sweep2), sweep_two_steps.
Defined.

Lemma sweeps_in_turn_sender_exclusive_witness :
  hash_fixes_sender
  ∧ rtc (node_step true) node_new served
  ∧ size (_transactions (node_this served)) = size (_senderPubKeys (node_this served)).
Proof.
  split; [apply hash_fixes_sender_methods|]. split; [apply served_in_turn|].
  apply (sweeps_in_turn_sender_exclusive served hash_fixes_sender_methods
           served_in_turn).
Defined.

Lemma pushTransaction_independent_witness :
  senderPubKey t1 ≠ senderPubKey t2
  ∧ hash t1 ≠ hash t2
  ∧ result (pushTransaction at_first t2 (pool (pushTransaction at_first t1 Mempool_new)))
    = result (pushTransaction at_first t2 Mempool_new)
  ∧ _transactions
      (pool (pushTransaction at_first t2 (pool (pushTransaction at_first t1 Mempool_new))))
      !! hash t1
    = _transactions
        (pool (pushTransaction at_first t1 (pool (pushTransaction at_first t2 Mempool_new))))
        !! hash t1.
Proof.
  assert (senderPubKey t1 ≠ senderPubKey t2) as Hsender by (vm_compute; discriminate).
  assert (hash t1 ≠ hash t2) as Hhash by (vm_compute; discriminate).
  split; [exact Hsender|]. split; [exact Hhash|].
  destruct (pushTransaction_independent at_first at_first t1 t2 Mempool_new
              Hsender Hhash) as (Hr & Hm & _).
  split; [exact Hr|]. apply Hm.
Defined.


(** On the page, the callback of T2 can run first. *)
Example page_page1 : ui_step (_mempoolChanged pool12 page) page1.
Proof.
  assert (_mempoolChanged pool12 page
          = {| _mplTransactionCount := 2; _mplTransactions := [];
               callbacks := [] ++ t2 :: [t1] |}) as ->
    by (vm_compute; reflexivity).
  apply (row_appended 2%nat [] [] t2 [t1]).
Qed.

Lemma _mempoolChanged_count_witness :
  callbacks page = []
  ∧ rtc ui_step (_mempoolChanged pool12 page) page1
  ∧ _mplTransactionCount (_mempoolChanged pool12 page)
    = Nat.min 5000 (size (_transactions pool12))
  ∧ _mplTransactions (_mempoolChanged pool12 page) = []
  ∧ _mplTransactionCount page1 = Nat.min 5000 (size (_transactions pool12))
  ∧ _mplTransactions page1 ++ (row_of <$> callbacks page1)
    ≡ₚ row_of <$> result (getTransactions maxCount_default pool12)
  ∧ (length (_mplTransactions page1) + length (callbacks page1))%nat
    = _mplTransactionCount page1.
Proof.
  split; [reflexivity|]. split; [apply rtc_once, page_page1|].
  apply (_mempoolChanged_count pool12 page page1).
  - reflexivity.
  - apply rtc_once, page_page1.
Defined.

Example _humanBytes_examples :
  _humanBytes 0 = Some "0 B"
  ∧ _humanBytes 1025 = Some "1.00 kB"
  ∧ _humanBytes 1536 = Some "1.50 kB"
  ∧ _humanBytes 1048575 = Some "1024.00 kB"
  ∧ _humanBytes 1048576 = Some "1024 kB"
  ∧ _humanBytes 123456789 = Some "117.74 MB".
Proof. vm_compute. done. Qed.

Lemma _humanBytes_scale_witness :
  (123456789 ≤ 2 ^ 53)%N
  ∧ ∃ q i u,
      _humanBytes_scaled 123456789 = Some (q, i)
      ∧ (q * Qc_of_Z (1024 ^ Z.of_nat i))%Qc = Qc_of_Z (Z.of_N 123456789)
      ∧ (q ≤ Qc_of_Z 1024)%Qc
      ∧ ((0 < i)%nat → (1 < q)%Qc)
      ∧ (i ≤ 5)%nat
      ∧ units !! i = Some u
      ∧ _humanBytes 123456789
        = Some ((if isInteger q then pretty (Qfloor q) else toFixed2 q)
                +:+ " " +:+ u).
Proof.
  assert (123456789 ≤ 2 ^ 53)%N as Hb by (vm_compute; discriminate).
  split; [exact Hb|]. apply (_humanBytes_scale 123456789 Hb).
Defined.

Lemma _humanBytes_small_witness :
  (1024 ≤ 1024)%N
  ∧ _humanBytes 1024 = Some (pretty 1024%N +:+ " B").
Proof.
  split; [reflexivity|]. apply (_humanBytes_small 1024). reflexivity.
Defined.

End examples.
